(** * Kuratowski reduction, classification and SVG rendering

    A shallow embedding of [src/api/app.py] (the SVG entry point) and of the
    reducer and classifier it shares with [src/app.py].

    The Python code works on [networkx.Graph] objects.  Such an object is a
    dictionary [_adj] from node to a dictionary of neighbours (the edge
    attribute dictionaries are always empty here).  Python dictionaries keep
    insertion order, and the reducer picks "the first" node of degree two,
    so a graph is modelled as an association list in insertion order. *)

From Stdlib Require Import QArith Qminmax Qround Lqa.
From Stdlib Require Import String Ascii DecimalString.
From stdpp Require Import base option list.

Local Open Scope nat_scope.
Local Set Warnings "-clear-no-such-hyp,-register-all".

(** ** The graph model: [networkx.Graph] *)

Section graph.
Context {V : Type} `{!EqDecision V}.

(** [_adj]: node -> neighbours, both in insertion order. *)
Definition Graph : Type := list (V * list V).

(** [G.nodes()], [list(G)]. *)
Definition nodes (G : Graph) : list V := G.*1.

(** [G.number_of_nodes()]. *)
Definition number_of_nodes (G : Graph) : nat := length G.

(** [G._adj[u]] as the list of its keys, [list(G.neighbors(u))].  The
    callers only ask for nodes of the graph; for any other [u] networkx
    raises, and the model answers with the empty list. *)
Fixpoint adj (G : Graph) (u : V) : list V :=
  match G with
  | [] => []
  | (n, nbrs) :: G' => if decide (n = u) then nbrs else adj G' u
  end.

Definition neighbors (G : Graph) (u : V) : list V := adj G u.

(** [u in G]. *)
Definition has_node (G : Graph) (u : V) : bool := bool_decide (u ∈ nodes G).

(** [G.has_edge(u, v)]: [v in G._adj[u]], [False] on a missing [u]. *)
Definition has_edge (G : Graph) (u v : V) : bool := bool_decide (v ∈ adj G u).

(** networkx counts a self-loop twice: [len(nbrs) + (n in nbrs)]. *)
Definition node_degree (n : V) (nbrs : list V) : nat :=
  length nbrs + (if decide (n ∈ nbrs) then 1 else 0).

(** [G.degree()]: the pairs [(node, degree)] in node order. *)
Definition degree_view (G : Graph) : list (V * nat) :=
  (λ e, (e.1, node_degree e.1 e.2)) <$> G.

Definition degree (G : Graph) (u : V) : nat := node_degree u (adj G u).

(** [G.add_node(u)]: a new node is appended with no neighbours. *)
Definition add_node (G : Graph) (u : V) : Graph :=
  if decide (u ∈ nodes G) then G else G ++ [(u, [])].

(** [d[v] = {}] on a neighbour dictionary: an existing key keeps its
    place, a new one goes last. *)
Definition put (nbrs : list V) (v : V) : list V :=
  if decide (v ∈ nbrs) then nbrs else nbrs ++ [v].

(** [G._adj[u][v] = {}]. *)
Fixpoint adj_put (G : Graph) (u v : V) : Graph :=
  match G with
  | [] => []
  | (n, nbrs) :: G' =>
      if decide (n = u) then (n, put nbrs v) :: G'
      else (n, nbrs) :: adj_put G' u v
  end.

(** [G.add_edge(u, v)]: both endpoints become nodes when they are not,
    then [_adj[u][v]] and [_adj[v][u]] are set.  Nothing rejects [u == v]. *)
Definition add_edge (G : Graph) (u v : V) : Graph :=
  adj_put (adj_put (add_node (add_node G u) v) u v) v u.

Definition add_nodes_from (G : Graph) (ns : list V) : Graph :=
  fold_left add_node ns G.

(** [G.add_edges_from(edges)]. *)
Definition add_edges_from (G : Graph) (es : list (V * V)) : Graph :=
  fold_left (λ G e, add_edge G e.1 e.2) es G.

(** [G.remove_node(n)]:
    [nbrs = list(adj[n]); for u in nbrs: del adj[u][n]; del adj[n]].
    On a node that is not in the graph networkx raises (and
    [remove_nodes_from] skips it); the model leaves the graph as it is. *)
Definition remove_node (G : Graph) (n : V) : Graph :=
  let nbrs := adj G n in
  filter (λ e, e.1 ≠ n)
    ((λ e, if decide (e.1 ∈ nbrs) then (e.1, filter (λ w, w ≠ n) e.2) else e) <$> G).

(** [G.remove_nodes_from(ns)]. *)
Definition remove_nodes_from (G : Graph) (ns : list V) : Graph :=
  fold_left remove_node ns G.

(** [nx.isolates(G)]: the nodes of degree zero. *)
Definition isolates (G : Graph) : list V :=
  (filter (λ nd, nd.2 = 0) (degree_view G)).*1.

(** The pairs [(u, v)] for [u, nbrs in _adj.items() for v in nbrs]: every
    edge in both directions. *)
Definition adjacency_pairs (G : Graph) : list (V * V) :=
  G ≫= (λ e, pair e.1 <$> e.2).

(** [G.copy()]: a new graph that receives the nodes in order and then
    every adjacency pair through [add_edges_from]. *)
Definition copy (G : Graph) : Graph :=
  add_edges_from (add_nodes_from [] (nodes G)) (adjacency_pairs G).

(** [G.edges()]: every edge once, from the endpoint met first. *)
Fixpoint edges_from (seen : list V) (G : Graph) : list (V * V) :=
  match G with
  | [] => []
  | (n, nbrs) :: G' =>
      (pair n <$> filter (λ v, v ∉ seen) nbrs) ++ edges_from (n :: seen) G'
  end.

Definition edges (G : Graph) : list (V * V) := edges_from [] G.

(** *** Kuratowski helpers of the source *)

(** [is_complete_graph_custom] *)
Definition is_complete_graph_custom (G : Graph) : bool :=
  if decide (number_of_nodes G = 0) then true
  else
    let required_degree := number_of_nodes G - 1 in
    forallb (λ nd, bool_decide (nd.2 = required_degree)) (degree_view G).

(** The list [degree_two_nodes] of the reducer's loop. *)
Definition degree_two_nodes (G : Graph) : list V :=
  (filter (λ nd, nd.2 = 2) (degree_view G)).*1.

(** One pass of the loop body for the selected node [u]. *)
Definition contract (G : Graph) (u : V) : Graph :=
  match neighbors G u with
  | [v1; v2] =>
      let G1 :=
        if decide (v1 ≠ v2 ∧ has_edge G v1 v2 = false)
        then add_edge G v1 v2 else G in
      remove_node G1 u
  | _ => G
  end.

(** The [while True] loop; [None] stands for a loop that has not reached
    its [break] within [fuel] iterations. *)
Fixpoint contract_loop (fuel : nat) (G : Graph) : option Graph :=
  match fuel with
  | 0 => None
  | S fuel' =>
      match degree_two_nodes G with
      | [] => Some G
      | u :: _ => contract_loop fuel' (contract G u)
      end
  end.

(** [get_kuratowski_minor] *)
Definition get_kuratowski_minor (fuel : nat) (subdivision_graph : Graph)
  : option Graph :=
  G_minor ← contract_loop fuel (copy subdivision_graph);
  Some (remove_nodes_from G_minor (isolates G_minor)).

(** *** Representation invariant

    What every [networkx.Graph] satisfies: the nodes are the keys of a
    dictionary, so are the neighbours of a node, and [_adj] is symmetric. *)
Definition wf (G : Graph) : Prop :=
  NoDup (nodes G) ∧
  Forall (λ e, NoDup e.2 ∧ Forall (λ v, e.1 ∈ adj G v) e.2) G.

(** No self-loop. *)
Definition simple (G : Graph) : Prop := Forall (λ e, e.1 ∉ e.2) G.

Global Instance wf_dec G : Decision (wf G).
Proof. unfold wf. apply _. Defined.

Global Instance simple_dec G : Decision (simple G).
Proof. unfold simple. apply _. Defined.

End graph.


(** The states the reducer's loop goes through, from the copy [G0] it
    starts with: one step contracts the first node of degree two. *)
Inductive loop_state {V : Type} `{!EqDecision V} (G0 : @Graph V)
  : @Graph V → Prop :=
| loop_start : loop_state G0 G0
| loop_next G u rest :
    loop_state G0 G → degree_two_nodes G = u :: rest →
    loop_state G0 (contract G u).

(** Two graph objects with the same nodes and the same edges.  This is
    how dictionaries compare in Python ([G.adj == H.adj]): by keys, not by
    insertion order. *)
Definition same_graph {V : Type} `{!EqDecision V} (G H : @Graph V) : Prop :=
  nodes G ≡ₚ nodes H ∧ ∀ u, adj G u ≡ₚ adj H u.

(** Every node has degree one or two, and there is a node: an invariant
    of the reducer's loop on graphs whose nodes all have degree two. *)
Definition degrees_one_two {V : Type} `{!EqDecision V} (G : @Graph V) : Prop :=
  G ≠ [] ∧ ∀ a, a ∈ nodes G → degree G a = 1 ∨ degree G a = 2.

(** ** The classifier *)

(** The classification labels of the specification and the strings the
    code returns for them. *)
Inductive label : Set :=
| K5_label | K33_label | K5_Subdivision_label | K33_Subdivision_label
| UnresolvedMinor.

Definition label_text (l : label) : string :=
  match l with
  | K5_label => "K_5"
  | K33_label => "K_3,3"
  | K5_Subdivision_label => "K_5 Subdivision"
  | K33_Subdivision_label => "K_3,3 Subdivision"
  | UnresolvedMinor => "Kuratowski Minor"
  end.

Section classifier.
Context {V : Type} `{!EqDecision V}.

(** The two networkx functions the classifier consults.  [nx.is_bipartite]
    answers with a boolean; [nx.bipartite.sets] returns two sets of nodes
    or raises, which is [None] here. *)
Variable is_bipartite : @Graph V → bool.
Variable bipartite_sets : @Graph V → option (list V * list V).

(** The [try] block of the second test: [Some "K_3,3"] when it returns,
    [None] when control falls through, also after the [except ... pass]. *)
Definition k33_attempt (graph : @Graph V) : option string :=
  match bipartite_sets graph with
  | Some (p1, p2) =>
      if (length p1 =? 3) && (length p2 =? 3) then Some "K_3,3"%string else None
  | None => None
  end.

(** [get_kuratowski_type] *)
Definition get_kuratowski_type (graph : @Graph V) : string :=
  let num_nodes := number_of_nodes graph in
  if (num_nodes =? 5) && is_complete_graph_custom graph then "K_5"
  else
    match
      (if (num_nodes =? 6) && is_bipartite graph then k33_attempt graph
       else None)
    with
    | Some s => s
    | None =>
        if (5 <=? num_nodes) && is_complete_graph_custom graph
        then "K_5 Subdivision"
        else if (6 <=? num_nodes) && is_bipartite graph
        then "K_3,3 Subdivision"
        else "Kuratowski Minor"
    end.

(** *** The rules as the specification words them *)

(** "the two bipartition classes each have exactly 3 nodes"; an
    unavailable bipartition does not match. *)
Definition classes_3_3 (graph : @Graph V) : bool :=
  match bipartite_sets graph with
  | Some (p1, p2) => (length p1 =? 3) && (length p2 =? 3)
  | None => false
  end.

(** The five rules, in priority order: a guard and the label it yields. *)
Definition classifier_rules : list ((@Graph V → bool) * label) :=
  [ (λ g, (number_of_nodes g =? 5) && is_complete_graph_custom g, K5_label);
    (λ g, (number_of_nodes g =? 6) && is_bipartite g && classes_3_3 g,
      K33_label);
    (λ g, (5 <=? number_of_nodes g) && is_complete_graph_custom g,
      K5_Subdivision_label);
    (λ g, (6 <=? number_of_nodes g) && is_bipartite g, K33_Subdivision_label);
    (λ _, true, UnresolvedMinor) ].

(** First match wins. *)
Fixpoint first_match (rules : list ((@Graph V → bool) * label))
  (graph : @Graph V) : option label :=
  match rules with
  | [] => None
  | (guard, l) :: rules' =>
      if guard graph then Some l else first_match rules' graph
  end.

End classifier.

(** ** The SVG renderer of [src/api/app.py]

    Coordinates are Python floats in the source; here they are exact
    rationals, the finite reals of the specification's position map. *)

(** [html.escape(s)], with [quote=True]. *)
Definition escape_char (c : ascii) : string :=
  if Ascii.eqb c "&" then "&amp;"
  else if Ascii.eqb c "<" then "&lt;"
  else if Ascii.eqb c ">" then "&gt;"
  else if Ascii.eqb c (ascii_of_nat 34) then "&quot;"
  else if Ascii.eqb c (ascii_of_nat 39) then "&#x27;"
  else String c EmptyString.

Fixpoint html_escape (s : string) : string :=
  match s with
  | EmptyString => EmptyString
  | String c s' => (escape_char c ++ html_escape s')%string
  end.

(** [min(xs)] and [max(xs)] of Python: the first element is kept until a
    strictly smaller (larger) one comes.  They are only called on lists
    with an element. *)
Definition py_min (xs : list Q) : Q :=
  match xs with
  | [] => 0%Q
  | x :: xs' => fold_left (λ m y, if Qlt_le_dec y m then y else m) xs' x
  end.

Definition py_max (xs : list Q) : Q :=
  match xs with
  | [] => 0%Q
  | x :: xs' => fold_left (λ m y, if Qlt_le_dec m y then y else m) xs' x
  end.

(** The node style after the defaults are filled in. *)
Record node_style : Type := {
  node_radius : Q;
  node_color : string;
  node_stroke : string;
  edge_color : string;
  label_color : string;
  highlight_color : string
}.

Definition default_style : node_style := {|
  node_radius := 18%Q;
  node_color := "#76c7ff";
  node_stroke := "#1f6feb";
  edge_color := "#444";
  label_color := "#ffffff";
  highlight_color := "#e63946"
|}.

(** [str] on numbers. *)
Definition nat_str (n : nat) : string := NilZero.string_of_uint (Nat.to_uint n).

(** The two ways a line is drawn: [normal_line] is [edge_color], width 2,
    opacity 0.75; [highlight_line] is [highlight_color], width 4, opacity
    0.95. *)
Inductive line_kind : Set := normal_line | highlight_line.

Section render.
Context {V : Type} `{!EqDecision V}.

(** [<] on node identifiers, as [sorted] uses it, and [str]. *)
Variable node_lt : V → V → bool.
Variable node_str : V → string.

(** [pos]: a dictionary from node to a pair of coordinates. *)
Definition Pos : Type := list (V * (Q * Q)).

(** [pos[n]], [n in pos]. *)
Fixpoint pos_get (pos : Pos) (n : V) : option (Q * Q) :=
  match pos with
  | [] => None
  | (m, xy) :: pos' => if decide (m = n) then Some xy else pos_get pos' n
  end.

(** The strings appended to [parts], with the values that are formatted
    into them.  A line, a circle and a text also carry the nodes they are
    drawn for; the text shown is [html.escape(str(n))]. *)
Inductive svg_part : Type :=
| XmlDeclaration
| SvgOpen (vb_min_x vb_min_y vb_w vb_h : Q) (width_px height_px : Z)
| SvgTitle (safe_title : string)
| SvgLine (u v : V) (x1 y1 x2 y2 : Q) (kind : line_kind) (stroke : string)
| SvgCircle (n : V) (cx cy r : Q) (fill stroke : string)
| SvgText (n : V) (x y font_size : Q) (fill safe_label : string)
| SvgClose.

(** [tuple(sorted(e))] for a pair: the two swap when the second is less
    than the first. *)
Definition sorted_pair (e : V * V) : V * V :=
  if node_lt e.2 e.1 then (e.2, e.1) else e.

(** [_normalize_positions] *)
Definition _normalize_positions (pos : Pos) : Q * Q * Q * Q :=
  let xs := match pos with [] => [0%Q] | _ => (λ p, p.2.1) <$> pos end in
  let ys := match pos with [] => [0%Q] | _ => (λ p, p.2.2) <$> pos end in
  let min_x := py_min xs in
  let max_x := py_max xs in
  let min_y := py_min ys in
  let max_y := py_max ys in
  let width := if Qeq_bool max_x min_x then 1%Q else (max_x - min_x)%Q in
  let height := if Qeq_bool max_y min_y then 1%Q else (max_y - min_y)%Q in
  (min_x, min_y, width, height).

(** The viewport [(vb_min_x, vb_min_y, vb_w, vb_h)] computed from [pos]. *)
Definition viewbox (pos : Pos) : Q * Q * Q * Q :=
  let '(min_x, min_y, w, h) := _normalize_positions pos in
  let padding := ((if Qlt_le_dec w h then h else w) * (12 # 100))%Q in
  ((min_x - padding)%Q, (min_y - padding)%Q,
   (w + 2 * padding)%Q, (h + 2 * padding)%Q).

(** The first loop: the edges of the graph that are not highlighted. *)
Definition normal_lines (G : @Graph V) (pos : Pos) (hl : list (V * V))
  (st : node_style) : list svg_part :=
  edges G ≫= (λ e,
    match pos_get pos e.1, pos_get pos e.2 with
    | Some (x1, y1), Some (x2, y2) =>
        if decide (sorted_pair e ∈ hl) then []
        else [SvgLine e.1 e.2 x1 y1 x2 y2 normal_line (edge_color st)]
    | _, _ => []
    end).

(** The second loop: the pairs of the highlight set. *)
Definition highlight_lines (pos : Pos) (hl : list (V * V))
  (st : node_style) : list svg_part :=
  hl ≫= (λ e,
    match pos_get pos e.1, pos_get pos e.2 with
    | Some (x1, y1), Some (x2, y2) =>
        [SvgLine e.1 e.2 x1 y1 x2 y2 highlight_line (highlight_color st)]
    | _, _ => []
    end).

(** The third loop: a circle and a label per node that has a position. *)
Definition node_parts (G : @Graph V) (pos : Pos) (st : node_style)
  : list svg_part :=
  nodes G ≫= (λ n,
    match pos_get pos n with
    | Some (x, y) =>
        [SvgCircle n x y (node_radius st) (node_color st) (node_stroke st);
         SvgText n x y
           (if Qlt_le_dec 10 (node_radius st) then node_radius st else 10%Q)
           (label_color st) (html_escape (node_str n))]
    | None => []
    end).

(** [graph_to_svg].  The highlight set is a Python set of pairs: a list
    here, without repetitions once its pairs are sorted; the order in which
    a set is walked is not fixed by Python. *)
Definition graph_to_svg (G : @Graph V) (pos : Pos)
  (highlight_edges : list (V * V)) (title : option string)
  (width_px height_px : Z) (st : node_style) : list svg_part :=
  let hl := remove_dups (sorted_pair <$> highlight_edges) in
  let '(vb_min_x, vb_min_y, vb_w, vb_h) := viewbox pos in
  [XmlDeclaration; SvgOpen vb_min_x vb_min_y vb_w vb_h width_px height_px]
  ++ match title with
     | Some (String c t) => [SvgTitle (html_escape (String c t))]
     | _ => []
     end
  ++ normal_lines G pos hl st
  ++ highlight_lines pos hl st
  ++ node_parts G pos st
  ++ [SvgClose].

(** The nodes an element is drawn for. *)
Definition part_nodes (p : svg_part) : list V :=
  match p with
  | SvgLine u v _ _ _ _ _ _ => [u; v]
  | SvgCircle n _ _ _ _ _ => [n]
  | SvgText n _ _ _ _ _ => [n]
  | _ => []
  end.

End render.

(** ** Graph objects and the variables that hold them

    A Python variable holds a reference to a graph object, and the methods
    [add_edge], [remove_node] and [remove_nodes_from] change the object in
    place.  The heap lists the graph objects; a reference is a position in
    it, and [G.copy()] allocates a new object at the end. *)

Abbreviation heap V := (list (@Graph V)).

Section heap.
Context {V : Type} `{!EqDecision V}.

(** A method call that changes the object at [r] in place. *)
Definition update (r : nat) (f : @Graph V → @Graph V) (σ : heap V)
  : option (heap V) :=
  G ← σ !! r; Some (<[r := f G]> σ).

(** [r.copy()]: the new object's reference and the heap that holds it. *)
Definition copy_obj (r : nat) (σ : heap V) : option (nat * heap V) :=
  G ← σ !! r; Some (length σ, σ ++ [copy G]).

(** The loop body on the object [G_minor]. *)
Definition contract_obj (G_minor : nat) (u : V) (σ : heap V) : option (heap V) :=
  G ← σ !! G_minor;
  match neighbors G u with
  | [v1; v2] =>
      σ1 ← (if decide (v1 ≠ v2 ∧ has_edge G v1 v2 = false)
            then update G_minor (λ G, add_edge G v1 v2) σ
            else Some σ);
      update G_minor (λ G, remove_node G u) σ1
  | _ => Some σ
  end.

Fixpoint contract_loop_obj (fuel : nat) (G_minor : nat) (σ : heap V)
  : option (heap V) :=
  match fuel with
  | 0 => None
  | S fuel' =>
      G ← σ !! G_minor;
      match degree_two_nodes G with
      | [] => Some σ
      | u :: _ =>
          σ1 ← contract_obj G_minor u σ; contract_loop_obj fuel' G_minor σ1
      end
  end.

(** [get_kuratowski_minor] on references: the argument is the reference
    the caller holds, the result the reference of the minor. *)
Definition get_kuratowski_minor_obj (fuel : nat) (subdivision_graph : nat)
  (σ : heap V) : option (nat * heap V) :=
  '(G_minor, σ1) ← copy_obj subdivision_graph σ;
  σ2 ← contract_loop_obj fuel G_minor σ1;
  G ← σ2 !! G_minor;
  σ3 ← update G_minor (λ G', remove_nodes_from G' (isolates G)) σ2;
  Some (G_minor, σ3).

End heap.

(** ** The request: [visualize_planarity_test] and [planarity_api]

    The payload is what [request.get_json()] returns: Python objects made
    of dictionaries, lists, strings, numbers, booleans and [None]. *)

Inductive json : Type :=
| JNull
| JBool (b : bool)
| JNum (q : Q)
| JStr (s : string)
| JArr (items : list json)
| JObj (fields : list (string * json)).

(** The exceptions the parsing of a payload can raise. *)
Inductive py_exception : Set :=
| KeyError (key : string)
| TypeError
| ValueError.

(** A computation that returns or raises. *)
Inductive result (A : Type) : Type :=
| Ok (a : A)
| Raise (e : py_exception).
Arguments Ok {A} a.
Arguments Raise {A} e.

Global Instance result_ret : MRet result := λ A a, Ok a.
Global Instance result_bind : MBind result := λ A B f m,
  match m with
  | Ok a => f a
  | Raise e => Raise e
  end.

(** [d.get(key)] on the fields of a dictionary. *)
Fixpoint field (fields : list (string * json)) (key : string) : option json :=
  match fields with
  | [] => None
  | (k, v) :: fields' => if String.eqb k key then Some v else field fields' key
  end.

(** [v[key]] for a string [key]: a dictionary answers or raises
    [KeyError]; a list, a string, a number, a boolean and [None] raise
    [TypeError]. *)
Definition getitem (v : json) (key : string) : result json :=
  match v with
  | JObj fields =>
      match field fields key with
      | Some x => Ok x
      | None => Raise (KeyError key)
      end
  | _ => Raise TypeError
  end.

Fixpoint characters (s : string) : list json :=
  match s with
  | EmptyString => []
  | String c s' => JStr (String c EmptyString) :: characters s'
  end.

(** [for e in v]: the items of a list, the keys of a dictionary, the
    characters of a string; anything else is not iterable. *)
Definition iterate (v : json) : result (list json) :=
  match v with
  | JArr items => Ok items
  | JObj fields => Ok (JStr <$> fields.*1)
  | JStr s => Ok (characters s)
  | _ => Raise TypeError
  end.

(** Truth value of a payload: [not data] holds for [None], [False], zero
    and the empty string, list and dictionary. *)
Definition truthy (v : json) : bool :=
  match v with
  | JNull => false
  | JBool b => b
  | JNum q => negb (Qeq_bool q 0)
  | JStr s => negb (String.eqb s EmptyString)
  | JArr items => match items with [] => false | _ => true end
  | JObj fields => match fields with [] => false | _ => true end
  end.

(** [key in v] for a string [key]: a key of a dictionary, an item of a
    list, a part of a string; on a number, a boolean or [None] it raises
    [TypeError]. *)
Definition contains (v : json) (key : string) : result bool :=
  match v with
  | JObj fields => Ok (bool_decide (is_Some (field fields key)))
  | JArr items =>
      Ok (existsb (λ x, match x with JStr s => String.eqb s key | _ => false end)
            items)
  | JStr s => Ok (bool_decide (is_Some (String.index 0 key s)))
  | _ => Raise TypeError
  end.

(** The six values [visualize_planarity_test] returns, in their order. *)
Record visualization (img edge : Type) : Type := {
  svg_original_b : option img;
  svg_sub_b : option img;
  svg_minor_b : option img;
  title_of : option string;
  kuratowski_type_of : option string;
  kuratowski_edges_of : option (list edge)
}.
Arguments svg_original_b {img edge} _.
Arguments svg_sub_b {img edge} _.
Arguments svg_minor_b {img edge} _.
Arguments title_of {img edge} _.
Arguments kuratowski_type_of {img edge} _.
Arguments kuratowski_edges_of {img edge} _.

(** How a call ends: it returns, an exception leaves it, or its loop
    does not stop. *)
Inductive outcome (A : Type) : Type :=
| Returns (a : A)
| Uncaught (e : py_exception)
| Diverges.
Arguments Returns {A} a.
Arguments Uncaught {A} e.
Arguments Diverges {A}.

(** What the endpoint answers. *)
Inductive response (img edge : Type) : Type :=
| BadRequest (error : option string)
| Success (title : option string) (is_planar : bool)
    (kuratowski_type : option string) (kuratowski_edges : list edge)
    (image_original : img) (image_subdivision image_minor : option img)
| ServerError (e : py_exception)
| NoAnswer.
Arguments BadRequest {img edge} error.
Arguments Success {img edge} _ _ _ _ _ _ _.
Arguments ServerError {img edge} e.
Arguments NoAnswer {img edge}.

Section request.
Context {V : Type} `{!EqDecision V}.

(** What the surrounding libraries do. *)

(** The node a JSON value stands for as a dictionary key; [None] for a
    list or a dictionary, which cannot be hashed. *)
Variable node_of : json → option V.
Variable node_lt : V → V → bool.
Variable node_str : V → string.
(** [float(s)] on a string; [None] when it raises [ValueError]. *)
Variable float_of_string : string → option Q.
(** [str(e)] on an exception. *)
Variable exception_text : py_exception → string.
(** [nx.check_planarity(G, counterexample=True)]: [None] for a planar
    graph, the certificate otherwise. *)
Variable check_planarity : @Graph V → option (@Graph V).
(** [nx.circular_layout(G)]. *)
Variable circular_layout : @Graph V → @Pos V.
Variable is_bipartite : @Graph V → bool.
Variable bipartite_sets : @Graph V → option (list V * list V).

(** [float(v)] *)
Definition to_float (v : json) : result Q :=
  match v with
  | JNum q => Ok q
  | JBool b => Ok (if b then 1%Q else 0%Q)
  | JStr s =>
      match float_of_string s with
      | Some q => Ok q
      | None => Raise ValueError
      end
  | _ => Raise TypeError
  end.

(** [pos[k] = xy] *)
Fixpoint pos_set (pos : @Pos V) (k : V) (xy : Q * Q) : @Pos V :=
  match pos with
  | [] => [(k, xy)]
  | (m, c) :: pos' =>
      if decide (m = k) then (m, xy) :: pos' else (m, c) :: pos_set pos' k xy
  end.

(** [[(e['source'], e['target']) for e in items]] *)
Fixpoint parse_edges (items : list json) : result (list (json * json)) :=
  match items with
  | [] => Ok []
  | e :: items' =>
      source ← getitem e "source";
      target ← getitem e "target";
      rest ← parse_edges items';
      Ok ((source, target) :: rest)
  end.

(** [{n['id']: (float(n['x']), float(n['y'])) for n in items}] *)
Fixpoint parse_positions (items : list json) (pos : @Pos V)
  : result (@Pos V) :=
  match items with
  | [] => Ok pos
  | n :: items' =>
      id ← getitem n "id";
      xv ← getitem n "x";
      x ← to_float xv;
      yv ← getitem n "y";
      y ← to_float yv;
      match node_of id with
      | Some k => parse_positions items' (pos_set pos k (x, y))
      | None => Raise TypeError
      end
  end.

(** The body of the [try]. *)
Definition parse_graph_data (graph_data : json)
  : result (list (json * json) * @Pos V) :=
  edges_v ← getitem graph_data "edges";
  edge_items ← iterate edges_v;
  es ← parse_edges edge_items;
  nodes_v ← getitem graph_data "nodes";
  node_items ← iterate nodes_v;
  pos ← parse_positions node_items [];
  Ok (es, pos).

(** [G.add_edges_from(edges)] on the parsed pairs: networkx raises
    [TypeError] on an endpoint that cannot be hashed and [ValueError] on
    [None]. *)
Fixpoint build_graph (G : @Graph V) (es : list (json * json))
  : result (@Graph V) :=
  match es with
  | [] => Ok G
  | (s, t) :: es' =>
      match node_of s, node_of t with
      | Some u, Some v =>
          match s, t with
          | JNull, _ | _, JNull => Raise ValueError
          | _, _ => build_graph (add_edge G u v) es'
          end
      | _, _ => Raise TypeError
      end
  end.

Definition image : Type := list (@svg_part V).

Definition draw (G : @Graph V) (pos : @Pos V) (highlight : list (V * V))
  (title : string) : image :=
  graph_to_svg node_lt node_str G pos highlight (Some title) 800 800
    default_style.

(** [visualize_planarity_test] of [src/api/app.py].  The reducer's loop
    either removes a node per iteration or repeats the same state for
    ever, so one unit of fuel per node and one more decide whether it
    stops. *)
Definition visualize_planarity_test (graph_data : json)
  : outcome (visualization image (V * V)) :=
  match parse_graph_data graph_data with
  | Raise e =>
      Returns {| svg_original_b := None; svg_sub_b := None;
                 svg_minor_b := None; title_of := None;
                 kuratowski_type_of :=
                   Some ("Data parsing error: " ++ exception_text e)%string;
                 kuratowski_edges_of := None |}
  | Ok (es, pos) =>
      match build_graph [] es with
      | Raise e => Uncaught e
      | Ok G =>
          match check_planarity G with
          | None =>
              let title := "Graph is Planar"%string in
              Returns {| svg_original_b := Some (draw G pos [] title);
                         svg_sub_b := None; svg_minor_b := None;
                         title_of := Some title;
                         kuratowski_type_of := None;
                         kuratowski_edges_of := Some [] |}
          | Some counterexample_graph =>
              let title :=
                "Graph is NON-Planar (Kuratowski Counterexample Found)"%string in
              let kuratowski_edges :=
                sorted_pair node_lt <$> edges counterexample_graph in
              let svg_subdivision :=
                draw G pos kuratowski_edges
                  ("Intermediate Subdivision ("
                   ++ nat_str (number_of_nodes counterexample_graph)
                   ++ " vertices)")%string in
              match get_kuratowski_minor
                      (S (number_of_nodes counterexample_graph))
                      counterexample_graph with
              | None => Diverges
              | Some kuratowski_minor =>
                  let kuratowski_type :=
                    get_kuratowski_type is_bipartite bipartite_sets
                      kuratowski_minor in
                  let minor_pos :=
                    if 0 <? number_of_nodes kuratowski_minor
                    then (λ p, (p.1, ((p.2.1 * 200)%Q, (p.2.2 * 200)%Q)))
                           <$> circular_layout kuratowski_minor
                    else [] in
                  let svg_minor :=
                    draw kuratowski_minor minor_pos []
                      ("Minimal Kuratowski Minor: " ++ kuratowski_type)%string in
                  Returns {| svg_original_b := Some (draw G pos [] title);
                             svg_sub_b := Some svg_subdivision;
                             svg_minor_b := Some svg_minor;
                             title_of := Some title;
                             kuratowski_type_of := Some kuratowski_type;
                             kuratowski_edges_of := Some kuratowski_edges |}
              end
          end
      end
  end.

(** [planarity_api] of [src/api/app.py]; [data] is [request.get_json()]. *)
Definition planarity_api (data : json) : response image (V * V) :=
  let invalid :=
    BadRequest
      (Some "Invalid input format. Expected JSON with 'nodes' and 'edges'."%string) in
  if negb (truthy data) then invalid
  else
    match contains data "nodes" with
    | Raise e => ServerError e
    | Ok false => invalid
    | Ok true =>
        match contains data "edges" with
        | Raise e => ServerError e
        | Ok false => invalid
        | Ok true =>
            match visualize_planarity_test data with
            | Uncaught e => ServerError e
            | Diverges => NoAnswer
            | Returns r =>
                match svg_original_b r with
                | None => BadRequest (title_of r)
                | Some image_original =>
                    Success (title_of r)
                      (bool_decide (svg_sub_b r = None))
                      (kuratowski_type_of r)
                      (default [] (kuratowski_edges_of r))
                      image_original (svg_sub_b r) (svg_minor_b r)
                end
            end
        end
    end.

(** [visualize_planarity_test] of [src/app.py] on a payload that does not
    parse: five values, the message in the fourth place, the one its
    endpoint reads as [result_title]. *)
Definition matplotlib_parse_failure (e : py_exception)
  : option image * option image * option image * option string * option string :=
  (None, None, None,
   Some ("Data parsing error: Missing key or incorrect type. Details: "
         ++ exception_text e)%string,
   None).

End request.

(** ** Example graphs, with numbers for node identifiers *)

(** The complete graph on five nodes. *)
Definition K5_graph : @Graph nat :=
  add_edges_from []
    [(0, 1); (0, 2); (0, 3); (0, 4); (1, 2); (1, 3); (1, 4); (2, 3); (2, 4);
     (3, 4)].

(** [K5_graph] with node 5 inserted into the edge between 0 and 1. *)
Definition K5_subdivided : @Graph nat :=
  add_edges_from []
    [(0, 5); (5, 1); (0, 2); (0, 3); (0, 4); (1, 2); (1, 3); (1, 4); (2, 3);
     (2, 4); (3, 4)].

(** A cycle of three nodes: every node has degree two. *)
Definition triangle : @Graph nat := add_edges_from [] [(0, 1); (1, 2); (2, 0)].

(** One node with a loop on itself. *)
Definition loop_graph : @Graph nat := add_edges_from [] [(0, 0)].

(** A path on three nodes, positions for its nodes, and positions that
    leave node 2 out. *)
Definition path_graph : @Graph nat := add_edges_from [] [(0, 1); (1, 2)].

Definition path_positions : @Pos nat :=
  [(0, (0, 0)%Q); (1, (1, 0)%Q); (2, (2, 1)%Q)].


(** The renderer on numbered nodes, with the defaults of the source. *)
Definition render_nat (G : @Graph nat) (pos : @Pos nat)
  (highlight_edges : list (nat * nat)) : list (@svg_part nat) :=
  graph_to_svg Nat.ltb nat_str G pos highlight_edges None 800 800 default_style.

(** A payload whose only edge has no ["source"]:
    [{"nodes": [], "edges": [{"target": "b"}]}]. *)
Definition malformed_payload : json :=
  JObj [("nodes"%string, JArr []);
        ("edges"%string, JArr [JObj [("target"%string, JStr "b")]])].

(** ** Further definitions *)

Section more_graph.
Context {V : Type} `{!EqDecision V}.

(** What the loop keeps of the graph [G0] it started from: no node is
    new, no degree has grown, and an edge of [G0] between two nodes that
    are still there is still there. *)
Definition kept_from (G0 G : @Graph V) : Prop :=
  nodes G `sublist_of` nodes G0 ∧
  (∀ u, degree G u ≤ degree G0 u) ∧
  (∀ a b, a ∈ nodes G → b ∈ nodes G → b ∈ adj G0 a → b ∈ adj G a).

(** [del G._adj[u][v]] *)
Fixpoint adj_del (G : @Graph V) (u v : V) : @Graph V :=
  match G with
  | [] => []
  | (n, nbrs) :: G' =>
      if decide (n = u) then (n, filter (λ w, w ≠ v) nbrs) :: G'
      else (n, nbrs) :: adj_del G' u v
  end.

(** [G.remove_edge(u, v)] of networkx, for an edge of the graph. *)
Definition remove_edge (G : @Graph V) (u v : V) : @Graph V :=
  adj_del (adj_del G u v) v u.

(** A subdivision vertex [w] put into the edge between [a] and [b], the
    way the inputs of the reducer arise:
    [G.remove_edge(a, b); G.add_edge(a, w); G.add_edge(w, b)]. *)
Definition subdivide_edge (G : @Graph V) (a b w : V) : @Graph V :=
  add_edge (add_edge (remove_edge G a b) a w) w b.

End more_graph.

(** The characters that would end a text or an attribute value of the
    document: [<], [>], the double quote and the apostrophe. *)
Definition markup_char (c : ascii) : Prop :=
  c = "<"%char ∨ c = ">"%char ∨ c = ascii_of_nat 34 ∨ c = ascii_of_nat 39.

Section more_render.
Context {V : Type} `{!EqDecision V}.

(** [<] orders the node identifiers: of two different identifiers exactly
    one is less than the other, as for numbers and for strings. *)
Definition strict_total (lt : V → V → bool) : Prop :=
  (∀ a b, lt a b = true → lt b a = false) ∧
  (∀ a b, a ≠ b → lt a b = true ∨ lt b a = true).

(** The node of a circle, the node of a label, the two nodes of a line
    and the escaped text of a title or label. *)
Definition circle_node (p : @svg_part V) : option V :=
  match p with SvgCircle n _ _ _ _ _ => Some n | _ => None end.

Definition label_node (p : @svg_part V) : option V :=
  match p with SvgText n _ _ _ _ _ => Some n | _ => None end.

Definition line_ends (p : @svg_part V) : option (V * V) :=
  match p with SvgLine u v _ _ _ _ _ _ => Some (u, v) | _ => None end.

Definition part_text (p : @svg_part V) : option string :=
  match p with
  | SvgTitle t => Some t
  | SvgText _ _ _ _ _ t => Some t
  | _ => None
  end.

End more_render.

(** *** One node of the payload *)

Section more_request.
Context {V : Type} `{!EqDecision V}.
Variable node_of : json → option V.
Variable float_of_string : string → option Q.
Variable is_bipartite : @Graph V → bool.
Variable bipartite_sets : @Graph V → option (list V * list V).

(** The key and the value the dictionary comprehension computes for one
    item [n] of ["nodes"]: [n['id']: (float(n['x']), float(n['y']))]. *)
Definition parse_node (n : json) : result (V * (Q * Q)) :=
  id ← getitem n "id";
  xv ← getitem n "x";
  x ← to_float float_of_string xv;
  yv ← getitem n "y";
  y ← to_float float_of_string yv;
  match node_of id with
  | Some k => Ok (k, (x, y))
  | None => Raise TypeError
  end.

(** *** The Kuratowski type of the Matplotlib entry point, [src/app.py] *)

(** [s.startswith(old)], with what follows the prefix. *)
Fixpoint strip_prefix (old s : string) : option string :=
  match old, s with
  | EmptyString, _ => Some s
  | String a old', String b s' =>
      if Ascii.eqb a b then strip_prefix old' s' else None
  | String _ _, EmptyString => None
  end.

(** [s.replace(old, new)] for a non-empty [old]: the occurrences of [old]
    are replaced from the left, without overlap. *)
Fixpoint replace_from (fuel : nat) (old new s : string) : string :=
  match fuel with
  | 0 => s
  | S fuel' =>
      match s with
      | EmptyString => EmptyString
      | String c s' =>
          match strip_prefix old s with
          | Some rest => (new ++ replace_from fuel' old new rest)%string
          | None => String c (replace_from fuel' old new s')
          end
      end
  end.

(** [s.replace(old, new)]; for an empty [old] Python puts [new] before
    every character and at the end. *)
Definition py_replace (s old new : string) : string :=
  match old with
  | EmptyString =>
      (fold_right (λ c r, new ++ String c r) new (list_ascii_of_string s))%string
  | _ => replace_from (String.length s) old new s
  end.

(** The title [visualize_kuratowski_minor] returns for the type of the
    minor. *)
Definition minor_title (kuratowski_type : string) : string :=
  if String.eqb kuratowski_type "K_5" then "Minimal Kuratowski Minor: K_5"
  else if String.eqb kuratowski_type "K_3,3"
       then "Minimal Kuratowski Minor: K_3,3"
       else ("Minimal Minor: " ++ kuratowski_type)%string.

(** The [kuratowski_type] of [src/app.py]:
    [minor_title.replace("Minimal Kuratowski Minor: ", "")]. *)
Definition matplotlib_kuratowski_type (kuratowski_minor : @Graph V) : string :=
  py_replace
    (minor_title
       (get_kuratowski_type is_bipartite bipartite_sets kuratowski_minor))
    "Minimal Kuratowski Minor: " EmptyString.

End more_request.

(** A node for a JSON number: its integer part, when it is not negative. *)
Definition number_node (v : json) : option nat :=
  match v with
  | JNum q => if Qle_bool 0 q then Some (Z.to_nat (Qfloor q)) else None
  | _ => None
  end.


(** * Facts about the graph model *)

Section graph_facts.
Context {V : Type} `{!EqDecision V}.
Implicit Types (G : @Graph V) (u v w n : V) (nbrs : list V).

Lemma nodes_cons G n nbrs : nodes ((n, nbrs) :: G) = n :: nodes G.
Proof. done. Qed.

Lemma adj_elem G u nbrs : NoDup (nodes G) → (u, nbrs) ∈ G → adj G u = nbrs.
Proof.
  induction G as [|[n l] G IH]; simpl; intros Hnd Hin.
  - by apply elem_of_nil in Hin.
  - apply NoDup_cons in Hnd as [Hn Hnd].
    apply elem_of_cons in Hin as [Heq|Hin].
    + inversion Heq; subst. by rewrite decide_True.
    + rewrite decide_False; [by apply IH|].
      intros ->. apply Hn. apply list_elem_of_fmap. by exists (u, nbrs).
Qed.

Lemma adj_not_node G u : u ∉ nodes G → adj G u = [].
Proof.
  induction G as [|[n l] G IH]; simpl; [done|].
  intros Hn. apply not_elem_of_cons in Hn as [Hne Hn].
  rewrite decide_False; [by apply IH | done].
Qed.

Lemma adj_in G u : u ∈ nodes G → (u, adj G u) ∈ G.
Proof.
  induction G as [|[n l] G IH]; simpl; intros Hin.
  - by apply elem_of_nil in Hin.
  - destruct (decide (n = u)) as [->|Hne]; [apply list_elem_of_here|].
    apply list_elem_of_further, IH.
    apply elem_of_cons in Hin as [?|?]; [congruence|done].
Qed.

Lemma adj_is_node G u v : v ∈ adj G u → u ∈ nodes G.
Proof.
  intros Hv. destruct (decide (u ∈ nodes G)) as [|Hn]; [done|].
  rewrite (adj_not_node _ _ Hn) in Hv. by apply elem_of_nil in Hv.
Qed.

Lemma wf_alt G :
  wf G ↔ NoDup (nodes G) ∧ (∀ u, NoDup (adj G u)) ∧
         (∀ u v, v ∈ adj G u → u ∈ adj G v).
Proof.
  unfold wf. split.
  - intros [Hnd Hall]. rewrite Forall_forall in Hall. split_and!; [done|..].
    + intros u. destruct (decide (u ∈ nodes G)) as [Hu|Hu].
      * apply adj_in, Hall in Hu. apply Hu.
      * rewrite adj_not_node by done. constructor.
    + intros u v Hv. pose proof (adj_is_node _ _ _ Hv) as Hu.
      apply adj_in, Hall in Hu as [_ Hu]. simpl in Hu.
      rewrite Forall_forall in Hu. by apply Hu.
  - intros (Hnd & Hnb & Hsym). split; [done|].
    apply Forall_forall. intros [u l] Hin. simpl.
    rewrite <- (adj_elem _ _ _ Hnd Hin). split; [done|].
    apply Forall_forall. intros v. apply Hsym.
Qed.

Lemma simple_alt G : NoDup (nodes G) → simple G ↔ ∀ u, u ∉ adj G u.
Proof.
  intros Hnd. unfold simple. rewrite Forall_forall. split.
  - intros Hall u Hu. pose proof (adj_is_node _ _ _ Hu) as Hn.
    apply adj_in in Hn. by apply Hall in Hn.
  - intros Hall [u l] Hin. simpl. rewrite <- (adj_elem _ _ _ Hnd Hin). done.
Qed.

Lemma wf_nodup G : wf G → NoDup (nodes G).
Proof. by intros [? _]. Qed.

Lemma wf_adj_nodup G u : wf G → NoDup (adj G u).
Proof. intros H. by apply wf_alt in H as (_ & H & _). Qed.

Lemma wf_adj_sym G u v : wf G → v ∈ adj G u → u ∈ adj G v.
Proof. intros H. apply wf_alt in H as (_ & _ & H). apply H. Qed.

Lemma simple_adj G u : wf G → simple G → u ∉ adj G u.
Proof. intros Hwf Hs. by apply simple_alt; [apply wf_nodup|]. Qed.

End graph_facts.

(** ** Adding nodes and edges *)

Section add_facts.
Context {V : Type} `{!EqDecision V}.
Implicit Types (G : @Graph V) (u v w n a b : V) (nbrs : list V).

Lemma adj_app G1 G2 w :
  adj (G1 ++ G2) w = if decide (w ∈ nodes G1) then adj G1 w else adj G2 w.
Proof.
  induction G1 as [|[n l] G1 IH]; cbn [adj app].
  - rewrite decide_False; [done|]. apply not_elem_of_nil.
  - change (nodes ((n, l) :: G1)) with (n :: nodes G1).
    destruct (decide (n = w)) as [->|Hne].
    + rewrite decide_True; [done|]. apply list_elem_of_here.
    + rewrite IH.
      destruct (decide (w ∈ nodes G1)) as [Hin|Hin].
      * rewrite decide_True; [done|]. by apply list_elem_of_further.
      * rewrite decide_False; [done|].
        intros [?|?]%elem_of_cons; [congruence|done].
Qed.

Lemma nodes_add_node G u :
  nodes (add_node G u) = if decide (u ∈ nodes G) then nodes G else nodes G ++ [u].
Proof.
  unfold add_node. destruct (decide (u ∈ nodes G)); [done|].
  unfold nodes. by rewrite fmap_app.
Qed.

Lemma adj_add_node G u w : adj (add_node G u) w = adj G w.
Proof.
  unfold add_node. destruct (decide (u ∈ nodes G)) as [|Hu]; [done|].
  rewrite adj_app. destruct (decide (w ∈ nodes G)) as [|Hw]; [done|].
  simpl. rewrite (adj_not_node _ _ Hw). by destruct (decide (u = w)).
Qed.

Lemma elem_nodes_add_node G u w : w ∈ nodes (add_node G u) ↔ w ∈ nodes G ∨ w = u.
Proof.
  rewrite nodes_add_node. destruct (decide (u ∈ nodes G)).
  - split; [auto|]. by intros [?| ->].
  - rewrite elem_of_app, list_elem_of_singleton. done.
Qed.

Lemma NoDup_nodes_add_node G u : NoDup (nodes G) → NoDup (nodes (add_node G u)).
Proof.
  intros Hnd. rewrite nodes_add_node. destruct (decide (u ∈ nodes G)); [done|].
  apply NoDup_app. split_and!; [done| |apply NoDup_singleton].
  intros x Hx ->%list_elem_of_singleton. done.
Qed.

Lemma elem_put nbrs v w : w ∈ put nbrs v ↔ w ∈ nbrs ∨ w = v.
Proof.
  unfold put. destruct (decide (v ∈ nbrs)).
  - split; [auto|]. by intros [?| ->].
  - by rewrite elem_of_app, list_elem_of_singleton.
Qed.

Lemma NoDup_put nbrs v : NoDup nbrs → NoDup (put nbrs v).
Proof.
  intros Hnd. unfold put. destruct (decide (v ∈ nbrs)); [done|].
  apply NoDup_app. split_and!; [done| |apply NoDup_singleton].
  intros x Hx ->%list_elem_of_singleton. done.
Qed.

Lemma nodes_adj_put G u v : nodes (adj_put G u v) = nodes G.
Proof.
  induction G as [|[n l] G IH]; cbn [adj_put]; [done|].
  destruct (decide (n = u)); [done|]. by rewrite !nodes_cons, IH.
Qed.

Lemma adj_adj_put G u v w :
  u ∈ nodes G →
  adj (adj_put G u v) w = if decide (w = u) then put (adj G u) v else adj G w.
Proof.
  induction G as [|[n l] G IH]; simpl; intros Hu.
  - by apply elem_of_nil in Hu.
  - destruct (decide (n = u)) as [->|Hne]; simpl.
    + destruct (decide (u = w)) as [->|Hne'].
      * by rewrite decide_True.
      * rewrite decide_False; [done|congruence].
    + apply elem_of_cons in Hu as [?|Hu]; [congruence|].
      destruct (decide (n = w)) as [->|Hne'].
      * rewrite decide_False; [done|congruence].
      * by apply IH.
Qed.

Lemma nodes_add_edge G u v :
  nodes (add_edge G u v) = nodes (add_node (add_node G u) v).
Proof. unfold add_edge. by rewrite !nodes_adj_put. Qed.

Lemma elem_nodes_add_edge G u v w :
  w ∈ nodes (add_edge G u v) ↔ w ∈ nodes G ∨ w = u ∨ w = v.
Proof. rewrite nodes_add_edge, !elem_nodes_add_node. naive_solver. Qed.

Lemma nodes_add_edge_in G u v :
  u ∈ nodes G → v ∈ nodes G → nodes (add_edge G u v) = nodes G.
Proof.
  intros Hu Hv. rewrite nodes_add_edge, !nodes_add_node.
  rewrite (decide_True _ _ Hu). by rewrite decide_True.
Qed.

Lemma adj_add_edge G u v w :
  adj (add_edge G u v) w =
    let a1 := if decide (w = u) then put (adj G w) v else adj G w in
    if decide (w = v) then put a1 u else a1.
Proof.
  unfold add_edge.
  assert (Hu : u ∈ nodes (add_node (add_node G u) v))
    by (rewrite !elem_nodes_add_node; auto).
  assert (Hv : v ∈ nodes (add_node (add_node G u) v))
    by (rewrite !elem_nodes_add_node; auto).
  rewrite adj_adj_put by (by rewrite nodes_adj_put).
  rewrite !adj_adj_put by done. rewrite !adj_add_node. simpl.
  destruct (decide (w = v)) as [->|?].
  - destruct (decide (v = u)) as [->|?]; done.
  - destruct (decide (w = u)) as [->|?]; done.
Qed.

Lemma elem_adj_add_edge G u v a b :
  b ∈ adj (add_edge G u v) a ↔
    b ∈ adj G a ∨ (a = u ∧ b = v) ∨ (a = v ∧ b = u).
Proof.
  rewrite adj_add_edge. simpl.
  destruct (decide (a = v)) as [->|?], (decide (v = u)) as [->|?];
    repeat case_decide; rewrite ?elem_put; naive_solver.
Qed.

Lemma NoDup_adj_add_edge G u v a :
  NoDup (adj G a) → NoDup (adj (add_edge G u v) a).
Proof.
  intros Hnd. rewrite adj_add_edge. simpl.
  repeat case_decide; auto using NoDup_put.
Qed.

Lemma add_edge_wf G u v : wf G → wf (add_edge G u v).
Proof.
  rewrite !wf_alt. intros (Hnd & Hnb & Hsym). split_and!.
  - rewrite nodes_add_edge. by do 2 apply NoDup_nodes_add_node.
  - intros a. by apply NoDup_adj_add_edge.
  - intros a b. rewrite !elem_adj_add_edge. naive_solver.
Qed.

Lemma add_edge_simple G u v : wf G → simple G → u ≠ v → simple (add_edge G u v).
Proof.
  intros Hwf Hs Hne. apply simple_alt; [by apply wf_nodup, add_edge_wf|].
  intros a. rewrite elem_adj_add_edge.
  pose proof (simple_adj G a Hwf Hs). naive_solver.
Qed.

Lemma add_edges_from_cons G e es :
  add_edges_from G (e :: es) = add_edges_from (add_edge G e.1 e.2) es.
Proof. done. Qed.

Lemma add_edges_from_wf G es : wf G → wf (add_edges_from G es).
Proof.
  revert G. induction es as [|e es IH]; simpl; intros G Hwf; [done|].
  apply IH. by apply add_edge_wf.
Qed.

Lemma elem_adj_add_edges_from G es a b :
  b ∈ adj (add_edges_from G es) a ↔ b ∈ adj G a ∨ (a, b) ∈ es ∨ (b, a) ∈ es.
Proof.
  revert G. induction es as [|[u v] es IH]; intros G.
  - rewrite !elem_of_nil. simpl. naive_solver.
  - rewrite add_edges_from_cons, IH, elem_adj_add_edge, !elem_of_cons.
    simpl. naive_solver.
Qed.

Lemma elem_nodes_add_edges_from G es w :
  w ∈ nodes (add_edges_from G es) ↔
    w ∈ nodes G ∨ ∃ e, e ∈ es ∧ (w = e.1 ∨ w = e.2).
Proof.
  revert G. induction es as [|[u v] es IH]; intros G.
  - split; [auto|]. intros [?|(e & He & _)]; [done|]. by apply elem_of_nil in He.
  - rewrite add_edges_from_cons, IH, elem_nodes_add_edge. simpl. split.
    + intros [[?|[->| ->]]|(e & He & Hw)]; auto.
      * right. exists (u, v). split; [apply list_elem_of_here|auto].
      * right. exists (u, v). split; [apply list_elem_of_here|auto].
      * right. exists e. split; [by apply list_elem_of_further|done].
    + intros [?|(e & He & Hw)]; [auto|].
      apply elem_of_cons in He as [->|He]; simpl in *; [naive_solver|].
      right. by exists e.
Qed.

End add_facts.

(** ** Removing nodes *)

Section remove_facts.
Context {V : Type} `{!EqDecision V}.
Implicit Types (G : @Graph V) (u v w n a b : V) (nbrs ns : list V).

Lemma filter_all {A} (P : A → Prop) `{!∀ x, Decision (P x)} (l : list A) :
  Forall P l → filter P l = l.
Proof.
  induction 1 as [|x l Hx _ IH]; [done|].
  rewrite filter_cons_True by done. by rewrite IH.
Qed.

Lemma length_filter_ne (l : list V) n :
  NoDup l → n ∈ l → length (filter (λ w, w ≠ n) l) + 1 = length l.
Proof.
  induction 1 as [|x l Hx Hnd IH]; intros Hin.
  - by apply elem_of_nil in Hin.
  - destruct (decide (x = n)) as [->|Hne].
    + rewrite filter_cons_False by naive_solver.
      rewrite filter_all; [simpl; lia|].
      apply Forall_forall. intros y Hy ->. done.
    + rewrite filter_cons_True by done. simpl.
      apply elem_of_cons in Hin as [?|Hin]; [congruence|].
      specialize (IH Hin). lia.
Qed.

Lemma nodes_remove_aux nbrs n G :
  nodes (filter (λ e, e.1 ≠ n)
           ((λ e, if decide (e.1 ∈ nbrs)
                  then (e.1, filter (λ w, w ≠ n) e.2) else e) <$> G))
  = filter (λ w, w ≠ n) (nodes G).
Proof.
  induction G as [|[m l] G IH]; [done|].
  rewrite fmap_cons, nodes_cons, !filter_cons. simpl.
  destruct (decide (m ∈ nbrs)); simpl;
    destruct (decide (m ≠ n)); simpl; rewrite ?nodes_cons; by rewrite IH.
Qed.

Lemma adj_remove_aux nbrs n G w :
  adj (filter (λ e, e.1 ≠ n)
         ((λ e, if decide (e.1 ∈ nbrs)
                then (e.1, filter (λ w, w ≠ n) e.2) else e) <$> G)) w
  = if decide (w = n) then []
    else if decide (w ∈ nbrs) then filter (λ x, x ≠ n) (adj G w) else adj G w.
Proof.
  set (f := λ e : V * list V,
         if decide (e.1 ∈ nbrs) then (e.1, filter (λ w, w ≠ n) e.2) else e).
  assert (Hf1 : ∀ e, (f e).1 = e.1) by (intros e; unfold f; by case_decide).
  assert (Hf2 : ∀ e, (f e).2 =
            if decide (e.1 ∈ nbrs) then filter (λ w, w ≠ n) e.2 else e.2)
    by (intros e; unfold f; by case_decide).
  clearbody f.
  induction G as [|[m l] G IH].
  - simpl. by repeat case_decide.
  - rewrite fmap_cons, filter_cons. rewrite Hf1. simpl.
    specialize (Hf1 (m, l)). specialize (Hf2 (m, l)). simpl in *.
    destruct (f (m, l)) as [m' l']. simpl in *. subst m' l'.
    destruct (decide (m ≠ n)) as [Hne|Heq]; cbn [adj]; rewrite IH.
    + destruct (decide (m = w)) as [->|Hmw]; [|done].
      by rewrite (decide_False (P := w = n)) by done.
    + assert (m = n) as -> by (by destruct (decide (m = n)); [|elim Heq]).
      destruct (decide (w = n)) as [->|Hwn]; [done|].
      by rewrite (decide_False (P := n = w)) by congruence.
Qed.

Lemma nodes_remove_node G n :
  nodes (remove_node G n) = filter (λ w, w ≠ n) (nodes G).
Proof. apply nodes_remove_aux. Qed.

Lemma elem_nodes_remove_node G n w :
  w ∈ nodes (remove_node G n) ↔ w ∈ nodes G ∧ w ≠ n.
Proof. rewrite nodes_remove_node, list_elem_of_filter. naive_solver. Qed.

Lemma adj_remove_node G n w :
  wf G →
  adj (remove_node G n) w =
    if decide (w = n) then [] else filter (λ x, x ≠ n) (adj G w).
Proof.
  intros Hwf. unfold remove_node. rewrite adj_remove_aux.
  destruct (decide (w = n)) as [|Hne]; [done|].
  destruct (decide (w ∈ adj G n)) as [|Hnin]; [done|].
  symmetry. apply filter_all, Forall_forall. intros x Hx ->.
  apply Hnin. by apply wf_adj_sym.
Qed.

Lemma elem_adj_remove_node G n a b :
  wf G → b ∈ adj (remove_node G n) a ↔ b ∈ adj G a ∧ a ≠ n ∧ b ≠ n.
Proof.
  intros Hwf. rewrite adj_remove_node by done.
  destruct (decide (a = n)) as [->|Hne].
  - rewrite elem_of_nil. naive_solver.
  - rewrite list_elem_of_filter. naive_solver.
Qed.

Lemma remove_node_wf G n : wf G → wf (remove_node G n).
Proof.
  intros Hwf. apply wf_alt. split_and!.
  - rewrite nodes_remove_node. by apply NoDup_filter, wf_nodup.
  - intros a. rewrite adj_remove_node by done.
    case_decide; [constructor|]. by apply NoDup_filter, wf_adj_nodup.
  - intros a b. rewrite !elem_adj_remove_node by done.
    intros (? & ? & ?). split_and!; [|done..]. by apply wf_adj_sym.
Qed.

Lemma remove_node_simple G n : wf G → simple G → simple (remove_node G n).
Proof.
  intros Hwf Hs. apply simple_alt; [by apply wf_nodup, remove_node_wf|].
  intros a. rewrite elem_adj_remove_node by done.
  pose proof (simple_adj G a Hwf Hs). naive_solver.
Qed.

Lemma length_remove_node G n :
  wf G → n ∈ nodes G →
  number_of_nodes (remove_node G n) + 1 = number_of_nodes G.
Proof.
  intros Hwf Hn. unfold number_of_nodes.
  rewrite <- (length_fmap fst (remove_node G n)), <- (length_fmap fst G).
  fold (nodes (remove_node G n)). fold (nodes G). rewrite nodes_remove_node.
  by apply length_filter_ne; [apply wf_nodup|].
Qed.

(** Removing a node without neighbours changes no neighbourhood. *)
Lemma adj_remove_isolated G n w :
  wf G → adj G n = [] → adj (remove_node G n) w = adj G w.
Proof.
  intros Hwf Hn. rewrite adj_remove_node by done.
  destruct (decide (w = n)) as [->|Hne]; [done|].
  apply filter_all, Forall_forall. intros x Hx ->.
  apply wf_adj_sym in Hx; [|done]. rewrite Hn in Hx. by apply elem_of_nil in Hx.
Qed.

Lemma remove_nodes_from_isolated G ns :
  wf G → Forall (λ n, adj G n = []) ns →
  wf (remove_nodes_from G ns) ∧
  (∀ w, adj (remove_nodes_from G ns) w = adj G w) ∧
  nodes (remove_nodes_from G ns) = filter (λ w, w ∉ ns) (nodes G).
Proof.
  revert G. induction ns as [|n ns IH]; intros G Hwf Hall.
  - split_and!; [done..|]. simpl. symmetry. apply filter_all, Forall_forall.
    intros x _. apply not_elem_of_nil.
  - apply Forall_cons in Hall as [Hn Hall].
    change (remove_nodes_from G (n :: ns))
      with (remove_nodes_from (remove_node G n) ns).
    destruct (IH (remove_node G n)) as (Hwf' & Hadj & Hnodes).
    { by apply remove_node_wf. }
    { eapply Forall_impl; [exact Hall|]. intros x Hx. simpl in *.
      by rewrite adj_remove_isolated. }
    split_and!; [done|..].
    + intros w. by rewrite Hadj, adj_remove_isolated.
    + rewrite Hnodes, nodes_remove_node. clear.
      induction (nodes G) as [|x l IHl]; [done|].
      rewrite (filter_cons (λ w, w ≠ n)), (filter_cons (λ w, w ∉ n :: ns)).
      destruct (decide (x ≠ n)) as [Hne|Heq].
      * rewrite filter_cons, IHl.
        destruct (decide (x ∉ ns)) as [Hin|Hin],
                 (decide (x ∉ n :: ns)) as [Hin'|Hin']; try done.
        -- exfalso. apply Hin'. intros [?|?]%elem_of_cons; done.
        -- exfalso. apply Hin. intros ?. apply Hin'. by apply list_elem_of_further.
      * rewrite IHl. rewrite decide_False; [done|].
        intros H. apply Heq. intros ->. apply H, list_elem_of_here.
Qed.

End remove_facts.

(** ** Degrees *)

Section degree_facts.
Context {V : Type} `{!EqDecision V}.
Implicit Types (G : @Graph V) (u v w n a b : V) (nbrs ns : list V).

Lemma degree_view_nodes G :
  NoDup (nodes G) → degree_view G = (λ n, (n, degree G n)) <$> nodes G.
Proof.
  intros Hnd. unfold degree_view, nodes. rewrite <- list_fmap_compose.
  apply Forall_fmap_ext, Forall_forall. intros [n l] Hin. simpl.
  unfold degree. by rewrite (adj_elem _ _ _ Hnd Hin).
Qed.

Lemma filter_degree_fst (d : V → nat) (k : nat) ns :
  (filter (λ nd : V * nat, nd.2 = k) ((λ n, (n, d n)) <$> ns)).*1
  = filter (λ n, d n = k) ns.
Proof.
  induction ns as [|x l IH]; [done|].
  rewrite fmap_cons, !filter_cons. cbn [snd].
  destruct (decide (d x = k)); [rewrite fmap_cons; cbn [fst]|]; by rewrite IH.
Qed.

Lemma degree_two_nodes_eq G :
  NoDup (nodes G) →
  degree_two_nodes G = filter (λ n, degree G n = 2) (nodes G).
Proof.
  intros Hnd. unfold degree_two_nodes.
  by rewrite degree_view_nodes, filter_degree_fst.
Qed.

Lemma isolates_eq G :
  NoDup (nodes G) → isolates G = filter (λ n, degree G n = 0) (nodes G).
Proof.
  intros Hnd. unfold isolates. by rewrite degree_view_nodes, filter_degree_fst.
Qed.

Lemma degree_simple G u : wf G → simple G → degree G u = length (adj G u).
Proof.
  intros Hwf Hs. unfold degree, node_degree.
  rewrite decide_False; [lia|]. by apply simple_adj.
Qed.

Lemma degree_not_node G u : u ∉ nodes G → degree G u = 0.
Proof.
  intros Hu. unfold degree, node_degree. rewrite adj_not_node by done.
  rewrite decide_False; [done|]. apply not_elem_of_nil.
Qed.

Lemma degree_zero_adj G u : degree G u = 0 → adj G u = [].
Proof.
  unfold degree, node_degree. intros H. apply nil_length_inv. lia.
Qed.

Lemma degree_two_nodes_nil G :
  NoDup (nodes G) → degree_two_nodes G = [] ↔ ∀ u, degree G u ≠ 2.
Proof.
  intros Hnd. rewrite degree_two_nodes_eq by done. split.
  - intros Hnil u Hu. destruct (decide (u ∈ nodes G)) as [Hin|Hin].
    + eapply (filter_nil_not_elem_of _ _ u); eauto.
    + rewrite degree_not_node in Hu by done. done.
  - intros Hall. clear Hnd. induction (nodes G) as [|x l IH]; [done|].
    rewrite filter_cons_False; [exact IH|]. intros Hx. by apply (Hall x).
Qed.

Lemma same_adj_degree G G' u :
  adj G' u ≡ₚ adj G u → degree G' u = degree G u.
Proof.
  intros Hp. unfold degree, node_degree. rewrite (Permutation_length Hp).
  destruct (decide (u ∈ adj G' u)) as [Hin|Hin].
  - rewrite decide_True; [done|]. by rewrite <- Hp.
  - rewrite decide_False; [done|]. by rewrite <- Hp.
Qed.

End degree_facts.

(** ** [copy] *)

Section copy_facts.
Context {V : Type} `{!EqDecision V}.
Implicit Types (G : @Graph V) (u v w n a b : V) (nbrs ns : list V).

Lemma adj_add_nodes_from G ns w : adj (add_nodes_from G ns) w = adj G w.
Proof.
  revert G. induction ns as [|n ns IH]; intros G; [done|].
  change (add_nodes_from G (n :: ns)) with (add_nodes_from (add_node G n) ns).
  by rewrite IH, adj_add_node.
Qed.

Lemma nodes_add_nodes_from G ns :
  NoDup (nodes G ++ ns) → nodes (add_nodes_from G ns) = nodes G ++ ns.
Proof.
  revert G. induction ns as [|n ns IH]; intros G Hnd.
  - simpl. by rewrite app_nil_r.
  - change (add_nodes_from G (n :: ns)) with (add_nodes_from (add_node G n) ns).
    assert (Hn : n ∉ nodes G).
    { apply NoDup_app in Hnd as (_ & Hd & _). intros Hin.
      apply (Hd n Hin), list_elem_of_here. }
    assert (Heq : nodes (add_node G n) = nodes G ++ [n]).
    { rewrite nodes_add_node. by rewrite decide_False. }
    rewrite IH; rewrite Heq, <- app_assoc; done.
Qed.

Lemma elem_adjacency_pairs G a b :
  NoDup (nodes G) → (a, b) ∈ adjacency_pairs G ↔ b ∈ adj G a.
Proof.
  intros Hnd. unfold adjacency_pairs. rewrite list_elem_of_bind. split.
  - intros ([n l] & Hab & Hin). simpl in Hab.
    apply list_elem_of_fmap in Hab as (y & Heq & Hy). inversion Heq; subst.
    by rewrite (adj_elem _ _ _ Hnd Hin).
  - intros Hb. exists (a, adj G a). split.
    + simpl. apply list_elem_of_fmap. by exists b.
    + apply adj_in. by eapply adj_is_node.
Qed.

Lemma nodes_add_edges_from_in G es :
  Forall (λ e, e.1 ∈ nodes G ∧ e.2 ∈ nodes G) es →
  nodes (add_edges_from G es) = nodes G.
Proof.
  revert G. induction es as [|e es IH]; intros G Hall; [done|].
  apply Forall_cons in Hall as [[H1 H2] Hall].
  rewrite add_edges_from_cons.
  assert (Heq : nodes (add_edge G e.1 e.2) = nodes G)
    by (by apply nodes_add_edge_in).
  rewrite IH; [done|]. by rewrite Heq.
Qed.

Lemma nodes_copy G : wf G → nodes (copy G) = nodes G.
Proof.
  intros Hwf. pose proof (wf_nodup _ Hwf) as Hnd. unfold copy.
  assert (H0 : nodes (add_nodes_from [] (nodes G)) = nodes G)
    by (by apply (nodes_add_nodes_from [])).
  rewrite nodes_add_edges_from_in; [done|].
  apply Forall_forall. intros [a b] Hab. simpl. rewrite H0.
  apply elem_adjacency_pairs in Hab; [|done]. split.
  - by eapply adj_is_node.
  - eapply adj_is_node. by apply wf_adj_sym.
Qed.

Lemma elem_adj_copy G a b : wf G → b ∈ adj (copy G) a ↔ b ∈ adj G a.
Proof.
  intros Hwf. pose proof (wf_nodup _ Hwf) as Hnd. unfold copy.
  rewrite elem_adj_add_edges_from, adj_add_nodes_from.
  rewrite !elem_adjacency_pairs by done. simpl. rewrite elem_of_nil.
  split; [|auto]. intros [[]|[?|?]]; [done|]. by apply wf_adj_sym.
Qed.

Lemma copy_wf G : wf G → wf (copy G).
Proof.
  intros Hwf. apply add_edges_from_wf, wf_alt. split_and!.
  - rewrite (nodes_add_nodes_from []); by apply wf_nodup.
  - intros u. rewrite adj_add_nodes_from. constructor.
  - intros u v. rewrite adj_add_nodes_from. simpl. by intros ?%elem_of_nil.
Qed.

Lemma adj_copy G u : wf G → adj (copy G) u ≡ₚ adj G u.
Proof.
  intros Hwf. apply NoDup_Permutation.
  - by apply wf_adj_nodup, copy_wf.
  - by apply wf_adj_nodup.
  - intros x. by apply elem_adj_copy.
Qed.

Lemma copy_simple G : wf G → simple G → simple (copy G).
Proof.
  intros Hwf Hs. apply simple_alt; [by apply wf_nodup, copy_wf|].
  intros u. rewrite elem_adj_copy by done. by apply simple_adj.
Qed.

Lemma degree_copy G u : wf G → degree (copy G) u = degree G u.
Proof. intros Hwf. by apply same_adj_degree, adj_copy. Qed.

Lemma degree_two_nodes_copy G : wf G → degree_two_nodes (copy G) = degree_two_nodes G.
Proof.
  intros Hwf. rewrite !degree_two_nodes_eq, nodes_copy;
    [|done|by apply wf_nodup|by apply wf_nodup, copy_wf].
  apply list_filter_iff. intros u. by rewrite degree_copy.
Qed.

Lemma isolates_copy G : wf G → isolates (copy G) = isolates G.
Proof.
  intros Hwf. rewrite !isolates_eq, nodes_copy;
    [|done|by apply wf_nodup|by apply wf_nodup, copy_wf].
  apply list_filter_iff. intros u. by rewrite degree_copy.
Qed.

End copy_facts.

(** ** The reducer's loop *)

Section reducer_facts.
Context {V : Type} `{!EqDecision V}.
Implicit Types (G : @Graph V) (u v w n a b : V) (nbrs ns : list V).

Lemma degree_two_nodes_head G u rest :
  wf G → degree_two_nodes G = u :: rest → u ∈ nodes G ∧ degree G u = 2.
Proof.
  intros Hwf Heq. rewrite degree_two_nodes_eq in Heq by (by apply wf_nodup).
  assert (Hin : u ∈ filter (λ n, degree G n = 2) (nodes G))
    by (rewrite Heq; apply list_elem_of_here).
  apply list_elem_of_filter in Hin. tauto.
Qed.

(** On a graph without self-loops the selected node has exactly two
    neighbours, both different from it and from each other. *)
Lemma selected_neighbors G u rest :
  wf G → simple G → degree_two_nodes G = u :: rest →
  ∃ v1 v2, adj G u = [v1; v2] ∧ v1 ≠ v2 ∧ v1 ≠ u ∧ v2 ≠ u ∧
           v1 ∈ nodes G ∧ v2 ∈ nodes G ∧ u ∈ adj G v1 ∧ u ∈ adj G v2.
Proof.
  intros Hwf Hs Heq. destruct (degree_two_nodes_head _ _ _ Hwf Heq) as [Hu Hd].
  rewrite degree_simple in Hd by done.
  pose proof (wf_adj_nodup G u Hwf) as Hnd.
  pose proof (simple_adj G u Hwf Hs) as Hnu.
  assert (Hsym : ∀ x, x ∈ adj G u → u ∈ adj G x)
    by (intros x; by apply wf_adj_sym).
  destruct (adj G u) as [|v1 [|v2 [|? ?]]]; simplify_eq/=.
  exists v1, v2. apply NoDup_cons in Hnd as [Hv1 _].
  rewrite list_elem_of_singleton in Hv1.
  assert (H1 : u ∈ adj G v1) by (apply Hsym, list_elem_of_here).
  assert (H2 : u ∈ adj G v2)
    by (apply Hsym, list_elem_of_further, list_elem_of_here).
  split_and!; try done.
  - intros ->. apply Hnu, list_elem_of_here.
  - intros ->. apply Hnu, list_elem_of_further, list_elem_of_here.
  - by eapply adj_is_node.
  - by eapply adj_is_node.
Qed.

Lemma contract_eq G u v1 v2 :
  adj G u = [v1; v2] → v1 ≠ v2 →
  contract G u = remove_node (if has_edge G v1 v2 then G else add_edge G v1 v2) u.
Proof.
  intros Hadj Hne. unfold contract, neighbors. rewrite Hadj.
  destruct (has_edge G v1 v2) eqn:He.
  - rewrite decide_False; [done|]. by intros [_ ?].
  - by rewrite decide_True.
Qed.

(** One iteration: the selected node goes, with its edges, and the graph
    stays well formed and free of self-loops. *)
Lemma contract_step G u rest :
  wf G → simple G → degree_two_nodes G = u :: rest →
  wf (contract G u) ∧ simple (contract G u) ∧
  nodes (contract G u) = filter (λ w, w ≠ u) (nodes G) ∧
  number_of_nodes (contract G u) + 1 = number_of_nodes G ∧
  (∀ w, u ∉ adj (contract G u) w) ∧ adj (contract G u) u = [].
Proof.
  intros Hwf Hs Heq.
  destruct (selected_neighbors _ _ _ Hwf Hs Heq)
    as (v1 & v2 & Hadj & Hne & H1 & H2 & Hv1 & Hv2 & _).
  destruct (degree_two_nodes_head _ _ _ Hwf Heq) as [Hu _].
  rewrite (contract_eq _ _ _ _ Hadj Hne).
  set (G1 := if has_edge G v1 v2 then G else add_edge G v1 v2).
  assert (Hwf1 : wf G1) by (unfold G1; case_match; auto using add_edge_wf).
  assert (Hs1 : simple G1) by (unfold G1; case_match; auto using add_edge_simple).
  assert (Hn1 : nodes G1 = nodes G)
    by (unfold G1; case_match; auto using nodes_add_edge_in).
  split_and!.
  - by apply remove_node_wf.
  - by apply remove_node_simple.
  - by rewrite nodes_remove_node, Hn1.
  - rewrite (length_remove_node G1 u); [|done|by rewrite Hn1].
    unfold number_of_nodes. rewrite <- (length_fmap fst G1), <- (length_fmap fst G).
    fold (nodes G1). fold (nodes G). by rewrite Hn1.
  - intros w. rewrite elem_adj_remove_node by done. tauto.
  - rewrite adj_remove_node by done. by rewrite decide_True.
Qed.

(** More fuel does not change a result. *)
Lemma contract_loop_mono fuel fuel' G G' :
  contract_loop fuel G = Some G' → fuel ≤ fuel' →
  contract_loop fuel' G = Some G'.
Proof.
  revert fuel' G. induction fuel as [|k IH]; intros fuel' G; [done|].
  intros Hrun Hle. destruct fuel' as [|k']; [lia|]. simpl in *.
  destruct (degree_two_nodes G) as [|u rest]; [done|].
  apply IH; [done|lia].
Qed.

(** Loop invariants: whatever one iteration keeps holds at the exit,
    where no node of degree two is left. *)
Lemma contract_loop_invariant (P : @Graph V → Prop) :
  (∀ G u rest, wf G → simple G → P G →
               degree_two_nodes G = u :: rest → P (contract G u)) →
  ∀ fuel G G', wf G → simple G → P G → contract_loop fuel G = Some G' →
               wf G' ∧ simple G' ∧ P G' ∧ degree_two_nodes G' = [].
Proof.
  intros Hstep. induction fuel as [|k IH]; intros G G' Hwf Hs HP Hrun; [done|].
  simpl in Hrun. destruct (degree_two_nodes G) as [|u rest] eqn:Heq.
  - by simplify_eq.
  - destruct (contract_step _ _ _ Hwf Hs Heq) as (Hwf' & Hs' & _).
    eapply IH; eauto.
Qed.

(** The loop reaches its [break] after at most one iteration per node. *)
Lemma contract_loop_terminates G :
  wf G → simple G →
  ∃ G', contract_loop (S (number_of_nodes G)) G = Some G'.
Proof.
  remember (number_of_nodes G) as k eqn:Hk. revert G Hk.
  induction k as [|k IH]; intros G Hk Hwf Hs; simpl;
    destruct (degree_two_nodes G) as [|u rest] eqn:Heq; eauto.
  - destruct (degree_two_nodes_head _ _ _ Hwf Heq) as [Hu _].
    destruct G; [by apply elem_of_nil in Hu|done].
  - destruct (contract_step _ _ _ Hwf Hs Heq) as (Hwf' & Hs' & _ & Hlen & _).
    apply (IH (contract G u)); [lia|done..].
Qed.

End reducer_facts.

(** ** The reducer *)

Section minor_facts.
Context {V : Type} `{!EqDecision V}.
Implicit Types (G : @Graph V) (u v w n a b : V) (nbrs ns : list V).

Lemma loop_state_wf G0 G :
  wf G0 → simple G0 → loop_state G0 G → wf G ∧ simple G.
Proof.
  intros Hwf Hs. induction 1 as [|G u rest _ [IHw IHs] Heq]; [done|].
  destruct (contract_step _ _ _ IHw IHs Heq) as (? & ? & _). done.
Qed.

Lemma filter_ext_in {A} (P Q : A → Prop) `{!∀ x, Decision (P x)}
  `{!∀ x, Decision (Q x)} (l : list A) :
  (∀ x, x ∈ l → P x ↔ Q x) → filter P l = filter Q l.
Proof.
  induction l as [|x l IH]; intros Hext; [done|].
  rewrite !filter_cons.
  assert (Hx : P x ↔ Q x) by (apply Hext, list_elem_of_here).
  rewrite IH by (intros y Hy; by apply Hext, list_elem_of_further).
  destruct (decide (P x)), (decide (Q x)); tauto.
Qed.

Lemma filter_none {A} (P : A → Prop) `{!∀ x, Decision (P x)} (l : list A) :
  Forall (λ x, ¬ P x) l → filter P l = [].
Proof.
  induction 1 as [|x l Hx _ IH]; [done|]. by rewrite filter_cons_False.
Qed.

(** Dropping the isolated nodes changes no neighbourhood. *)
Lemma remove_isolates_spec G :
  wf G →
  wf (remove_nodes_from G (isolates G)) ∧
  (∀ w, adj (remove_nodes_from G (isolates G)) w = adj G w) ∧
  nodes (remove_nodes_from G (isolates G))
  = filter (λ w, degree G w ≠ 0) (nodes G).
Proof.
  intros Hwf. pose proof (wf_nodup _ Hwf) as Hnd.
  destruct (remove_nodes_from_isolated G (isolates G) Hwf) as (H1 & H2 & H3).
  { apply Forall_forall. intros n Hn. rewrite isolates_eq in Hn by done.
    apply list_elem_of_filter in Hn as [Hn _]. by apply degree_zero_adj. }
  split_and!; [done..|]. rewrite H3. apply filter_ext_in. intros w Hw.
  rewrite isolates_eq, list_elem_of_filter by done. tauto.
Qed.

Lemma degree_same_adj G G' u : adj G' u = adj G u → degree G' u = degree G u.
Proof. unfold degree. by intros ->. Qed.

(** What [get_kuratowski_minor] returns once its loop has stopped. *)
Lemma minor_output G1 :
  wf G1 → simple G1 → degree_two_nodes G1 = [] →
  let Gout := remove_nodes_from G1 (isolates G1) in
  wf Gout ∧ simple Gout ∧
  (∀ u, adj Gout u = adj G1 u) ∧
  nodes Gout = filter (λ w, degree G1 w ≠ 0) (nodes G1) ∧
  degree_two_nodes Gout = [] ∧ isolates Gout = [].
Proof.
  intros Hwf Hs Hd2 Gout.
  destruct (remove_isolates_spec G1 Hwf) as (Hwf' & Hadj & Hnodes).
  fold Gout in Hwf', Hadj, Hnodes.
  pose proof (wf_nodup _ Hwf') as Hnd'.
  assert (Hdeg : ∀ u, degree Gout u = degree G1 u)
    by (intros u; by apply degree_same_adj).
  split_and!; [done| |done|done|..].
  - apply simple_alt; [done|]. intros u. rewrite Hadj. by apply simple_adj.
  - apply degree_two_nodes_nil; [done|]. intros u. rewrite Hdeg.
    by apply degree_two_nodes_nil; [apply wf_nodup|].
  - rewrite isolates_eq by done. apply filter_none, Forall_forall.
    intros x Hx. rewrite Hnodes in Hx.
    apply list_elem_of_filter in Hx as [Hx _]. by rewrite Hdeg.
Qed.

End minor_facts.

Section minor_results.
Context {V : Type} `{!EqDecision V}.
Implicit Types (G : @Graph V) (u v w n a b : V) (nbrs ns : list V).

Lemma number_of_nodes_copy G : wf G → number_of_nodes (copy G) = number_of_nodes G.
Proof.
  intros Hwf. unfold number_of_nodes.
  rewrite <- (length_fmap fst (copy G)), <- (length_fmap fst G).
  fold (nodes (copy G)). fold (nodes G). by rewrite nodes_copy.
Qed.

(** The reducer returns, whatever fuel above the node count it is given,
    and its result has neither a node of degree two nor an isolated one. *)
Lemma minor_result G :
  wf G → simple G →
  ∃ G1 G',
    contract_loop (S (number_of_nodes G)) (copy G) = Some G1 ∧
    degree_two_nodes G1 = [] ∧
    G' = remove_nodes_from G1 (isolates G1) ∧
    (∀ fuel, number_of_nodes G < fuel → get_kuratowski_minor fuel G = Some G') ∧
    wf G' ∧ simple G' ∧ degree_two_nodes G' = [] ∧ isolates G' = [].
Proof.
  intros Hwf Hs.
  pose proof (copy_wf _ Hwf) as Hwfc. pose proof (copy_simple _ Hwf Hs) as Hsc.
  destruct (contract_loop_terminates (copy G) Hwfc Hsc) as [G1 Hrun].
  rewrite number_of_nodes_copy in Hrun by done.
  destruct (contract_loop_invariant (λ _, True) (λ _ _ _ _ _ _ _, I)
              _ _ _ Hwfc Hsc I Hrun) as (Hwf1 & Hs1 & _ & Hd2).
  destruct (minor_output G1 Hwf1 Hs1 Hd2) as (Hwf' & Hs' & _ & _ & Hd2' & Hiso).
  exists G1, (remove_nodes_from G1 (isolates G1)).
  split_and!; try done.
  intros fuel Hfuel. unfold get_kuratowski_minor.
  rewrite (contract_loop_mono _ fuel _ _ Hrun) by lia. done.
Qed.

(** On a graph that has no node of degree two and no isolated node the
    reducer returns its copy after the first test of the loop. *)
Lemma minor_of_reduced G fuel :
  wf G → degree_two_nodes G = [] → isolates G = [] → 0 < fuel →
  get_kuratowski_minor fuel G = Some (copy G).
Proof.
  intros Hwf Hd2 Hiso Hfuel. unfold get_kuratowski_minor.
  destruct fuel as [|k]; [lia|]. simpl.
  rewrite degree_two_nodes_copy, Hd2 by done. simpl.
  by rewrite isolates_copy, Hiso by done.
Qed.

Lemma copy_same_graph G : wf G → same_graph (copy G) G ∧ nodes (copy G) = nodes G.
Proof.
  intros Hwf. split; [|by apply nodes_copy]. split.
  - by rewrite nodes_copy.
  - intros u. by apply adj_copy.
Qed.

End minor_results.

(** * The reducer: termination and idempotence *)

Section reducer_claims.
Context {V : Type} `{!EqDecision V}.
Implicit Types (G : @Graph V) (u v w : V).

(** C2.  On a graph without self-loops the reducer terminates.  In every
    state its loop goes through, the selected node has degree two and the
    iteration removes it together with its incident edges, so the graph
    loses one node per iteration.  The loop reaches its [break] within one
    iteration per node of the input, no node of degree two is left there,
    and the function returns a graph without a node of degree two for
    every amount of fuel above the node count. *)
Theorem reducer_terminates G :
  wf G → simple G →
  (∀ Gi u rest,
     loop_state (copy G) Gi → degree_two_nodes Gi = u :: rest →
     u ∈ nodes Gi ∧ degree Gi u = 2 ∧
     nodes (contract Gi u) = filter (λ w, w ≠ u) (nodes Gi) ∧
     (∀ w, u ∉ adj (contract Gi u) w) ∧
     number_of_nodes (contract Gi u) + 1 = number_of_nodes Gi) ∧
  ∃ G1 G',
    contract_loop (S (number_of_nodes G)) (copy G) = Some G1 ∧
    degree_two_nodes G1 = [] ∧
    (∀ fuel, number_of_nodes G < fuel →
             get_kuratowski_minor fuel G = Some G') ∧
    ∀ u, degree G' u ≠ 2.
Proof.
  intros Hwf Hs. split.
  - intros Gi u rest Hst Heq.
    destruct (loop_state_wf _ _ (copy_wf _ Hwf) (copy_simple _ Hwf Hs) Hst)
      as [Hwfi Hsi].
    destruct (degree_two_nodes_head _ _ _ Hwfi Heq) as [Hu Hd].
    destruct (contract_step _ _ _ Hwfi Hsi Heq)
      as (_ & _ & Hn & Hlen & Hadj & _).
    done.
  - destruct (minor_result G Hwf Hs)
      as (G1 & G' & Hrun & Hd2 & _ & Hfuel & Hwf' & _ & Hd2' & _).
    exists G1, G'. split_and!; try done.
    by apply degree_two_nodes_nil; [apply wf_nodup|].
Qed.

(** C3.  On a graph without self-loops the reducer's result has no node of
    degree two and no isolated node, and the reducer applied to that result
    returns a graph with the same nodes (in the same order) and the same
    edges. *)
Theorem reducer_idempotent G :
  wf G → simple G →
  ∃ G',
    (∀ fuel, number_of_nodes G < fuel →
             get_kuratowski_minor fuel G = Some G') ∧
    (∀ u, degree G' u ≠ 2) ∧
    (∀ u, u ∈ nodes G' → degree G' u ≠ 0) ∧
    ∃ G'',
      (∀ fuel, 0 < fuel → get_kuratowski_minor fuel G' = Some G'') ∧
      same_graph G'' G' ∧ nodes G'' = nodes G'.
Proof.
  intros Hwf Hs.
  destruct (minor_result G Hwf Hs)
    as (G1 & G' & _ & _ & _ & Hfuel & Hwf' & _ & Hd2' & Hiso).
  pose proof (wf_nodup _ Hwf') as Hnd'.
  exists G'. split_and!; [done|..].
  - by apply degree_two_nodes_nil.
  - intros u Hu Hd. rewrite isolates_eq in Hiso by done.
    by apply (filter_nil_not_elem_of _ _ u Hiso Hd).
  - exists (copy G'). split.
    + intros fuel Hpos. by apply minor_of_reduced.
    + by apply copy_same_graph.
Qed.

End reducer_claims.

(** The reducer on [K5_subdivided], a graph without self-loops. *)
Lemma reducer_terminates_witness :
  ∃ G', get_kuratowski_minor 7 K5_subdivided = Some G' ∧ ∀ u, degree G' u ≠ 2.
Proof.
  destruct (reducer_terminates K5_subdivided) as (_ & G1 & G' & _ & _ & Hrun & Hd).
  - apply (bool_decide_unpack _). vm_compute. exact I.
  - apply (bool_decide_unpack _). vm_compute. exact I.
  - exists G'. split; [apply Hrun; vm_compute; lia | exact Hd].
Defined.

(** A second run on the minor of [K5_subdivided] changes nothing. *)
Lemma reducer_idempotent_witness :
  ∃ G' G'', get_kuratowski_minor 7 K5_subdivided = Some G' ∧
            get_kuratowski_minor 1 G' = Some G'' ∧ same_graph G'' G'.
Proof.
  destruct (reducer_idempotent K5_subdivided)
    as (G' & Hrun & _ & _ & G'' & Hrun' & Hsame & _).
  - apply (bool_decide_unpack _). vm_compute. exact I.
  - apply (bool_decide_unpack _). vm_compute. exact I.
  - exists G', G''. split_and!; [apply Hrun; vm_compute; lia| apply Hrun'; lia |exact Hsame].
Defined.

(** * The classifier *)

Section classifier_claims.
Context {V : Type} `{!EqDecision V}.
Variable is_bipartite : @Graph V → bool.
Variable bipartite_sets : @Graph V → option (list V * list V).

Local Abbreviation rules := (classifier_rules is_bipartite bipartite_sets).
Local Abbreviation classify := (get_kuratowski_type is_bipartite bipartite_sets).

(** What "first match wins" means on a list of rules. *)
Lemma first_match_spec (rs : list ((@Graph V → bool) * label)) graph l :
  first_match rs graph = Some l →
  ∃ i guard, rs !! i = Some (guard, l) ∧ guard graph = true ∧
             ∀ j r, j < i → rs !! j = Some r → r.1 graph = false.
Proof.
  induction rs as [|[g l'] rs IH]; simpl; [done|].
  destruct (g graph) eqn:Hg.
  - intros [= ->]. exists 0, g. split_and!; [done..|]. intros j r Hj. lia.
  - intros (i & guard & Hi & Hguard & Hbefore)%IH.
    exists (S i), guard. split_and!; [done..|].
    intros [|j] r Hj Hr; simpl in Hr.
    + by simplify_eq.
    + apply (Hbefore j); [lia|done].
Qed.

(** The code's cascade of [if]s computes the first matching rule. *)
Lemma classifier_cascade graph :
  ∃ l, first_match rules graph = Some l ∧ classify graph = label_text l.
Proof.
  unfold get_kuratowski_type, k33_attempt, classifier_rules, classes_3_3.
  cbn [first_match].
  destruct (number_of_nodes graph =? 5), (is_complete_graph_custom graph),
    (number_of_nodes graph =? 6), (is_bipartite graph),
    (5 <=? number_of_nodes graph), (6 <=? number_of_nodes graph);
    cbn [andb];
    try (destruct (bipartite_sets graph) as [[p1 p2]|];
         [destruct (length p1 =? 3), (length p2 =? 3)|]; cbn [andb]);
    eexists; split; reflexivity.
Qed.

(** C1.  The classifier has five rules and returns the label of the first
    one, in the order of the specification, whose guard holds: every rule
    before it does not match. *)
Theorem classifier_first_match graph :
  length rules = 5 ∧
  ∃ i guard l,
    rules !! i = Some (guard, l) ∧ guard graph = true ∧
    (∀ j r, j < i → rules !! j = Some r → r.1 graph = false) ∧
    classify graph = label_text l.
Proof.
  split; [done|].
  destruct (classifier_cascade graph) as (l & Hfirst & Hlabel).
  destruct (first_match_spec _ _ _ Hfirst) as (i & guard & Hi & Hg & Hbefore).
  by exists i, guard, l.
Qed.

(** The classifier on small graphs: fewer than five nodes match no rule
    but the last. *)
Lemma classifier_small graph :
  number_of_nodes graph < 5 → classify graph = "Kuratowski Minor"%string.
Proof.
  intros Hn. unfold get_kuratowski_type.
  destruct (Nat.eqb_spec (number_of_nodes graph) 5); [lia|].
  destruct (Nat.eqb_spec (number_of_nodes graph) 6); [lia|].
  destruct (Nat.leb_spec 5 (number_of_nodes graph)); [lia|].
  destruct (Nat.leb_spec 6 (number_of_nodes graph)); [lia|]. done.
Qed.

End classifier_claims.

(** * Graphs whose nodes all have degree two *)

Section cycle_facts.
Context {V : Type} `{!EqDecision V}.
Implicit Types (G : @Graph V) (u v w n a b : V) (nbrs ns : list V).

Lemma length_two_distinct (l : list V) x y :
  x ∈ l → y ∈ l → x ≠ y → 2 ≤ length l.
Proof.
  intros Hx Hy Hne. destruct l as [|a [|b l]]; simpl; [| |lia].
  - by apply elem_of_nil in Hx.
  - apply list_elem_of_singleton in Hx, Hy. congruence.
Qed.

(** The neighbourhoods after one iteration, for the nodes that stay. *)
Lemma contract_adj_length G u rest v1 v2 a :
  wf G → simple G → degree_two_nodes G = u :: rest → adj G u = [v1; v2] →
  a ≠ u →
  length (adj (contract G u) a) =
    if decide (a = v1 ∨ a = v2)
    then (if has_edge G v1 v2 then length (adj G a) - 1 else length (adj G a))
    else length (adj G a).
Proof.
  intros Hwf Hs Heq Hadj Hau.
  destruct (selected_neighbors _ _ _ Hwf Hs Heq)
    as (v1' & v2' & Hadj' & Hne & H1 & H2 & Hv1 & Hv2 & Hu1 & Hu2).
  rewrite Hadj in Hadj'. simplify_eq.
  rewrite (contract_eq _ _ _ _ Hadj Hne).
  destruct (has_edge G v1' v2') eqn:He.
  - rewrite adj_remove_node, decide_False by done.
    destruct (decide (a = v1' ∨ a = v2')) as [Ha|Ha].
    + assert (Hin : u ∈ adj G a) by (by destruct Ha as [-> | ->]).
      pose proof (length_filter_ne (adj G a) u (wf_adj_nodup _ _ Hwf) Hin). lia.
    + f_equal. apply filter_all, Forall_forall. intros x Hx ->.
      apply wf_adj_sym in Hx; [|done]. rewrite Hadj in Hx.
      apply Ha. apply elem_of_cons in Hx as [?|Hx]; [by left|].
      apply list_elem_of_singleton in Hx. by right.
  - apply bool_decide_eq_false in He.
    assert (He' : v1' ∉ adj G v2') by (intros ?; by apply He, wf_adj_sym).
    pose proof (add_edge_wf G v1' v2' Hwf) as Hwf1.
    rewrite adj_remove_node, decide_False by done.
    destruct (decide (a = v1' ∨ a = v2')) as [Ha|Ha].
    + assert (Hin : u ∈ adj (add_edge G v1' v2') a).
      { apply elem_adj_add_edge. left. by destruct Ha as [-> | ->]. }
      pose proof (length_filter_ne _ u (wf_adj_nodup _ a Hwf1) Hin) as Hlen.
      assert (length (adj (add_edge G v1' v2') a) = length (adj G a) + 1);
        [|lia].
      rewrite adj_add_edge. simpl. destruct Ha as [-> | ->].
      * rewrite (decide_False (P := v1' = v2')), decide_True by done.
        unfold put. rewrite decide_False by done.
        rewrite length_app. simpl. lia.
      * rewrite (decide_True (P := v2' = v2')) by done.
        rewrite (decide_False (P := v2' = v1')) by done.
        unfold put. rewrite decide_False by done.
        rewrite length_app. simpl. lia.
    + rewrite adj_add_edge. simpl.
      rewrite !decide_False by (intros ->; apply Ha; auto).
      f_equal. apply filter_all, Forall_forall. intros x Hx ->.
      apply wf_adj_sym in Hx; [|done]. rewrite Hadj in Hx.
      apply Ha. apply elem_of_cons in Hx as [?|Hx]; [by left|].
      apply list_elem_of_singleton in Hx. by right.
Qed.

Lemma contract_degrees_one_two G u rest :
  wf G → simple G → degrees_one_two G → degree_two_nodes G = u :: rest →
  degrees_one_two (contract G u).
Proof.
  intros Hwf Hs [Hne Hdeg] Heq.
  destruct (selected_neighbors _ _ _ Hwf Hs Heq)
    as (v1 & v2 & Hadj & Hv & H1 & H2 & Hv1 & Hv2 & Hu1 & Hu2).
  destruct (contract_step _ _ _ Hwf Hs Heq) as (Hwf' & Hs' & Hn & _).
  split.
  - assert (Hin : v1 ∈ nodes (contract G u))
      by (rewrite Hn; by apply list_elem_of_filter).
    intros Hnil. rewrite Hnil in Hin. by apply elem_of_nil in Hin.
  - intros a Ha. rewrite Hn in Ha. apply list_elem_of_filter in Ha as [Hau Ha].
    rewrite degree_simple by done.
    rewrite (contract_adj_length _ _ _ _ _ _ Hwf Hs Heq Hadj Hau).
    specialize (Hdeg a Ha). rewrite degree_simple in Hdeg by done.
    destruct (decide (a = v1 ∨ a = v2)) as [Hor|]; [|done].
    destruct (has_edge G v1 v2) eqn:He; [|done].
    apply bool_decide_eq_true in He. left.
    assert (2 ≤ length (adj G a)); [|lia]. destruct Hor as [-> | ->].
    + by apply (length_two_distinct _ u v2).
    + apply (length_two_distinct _ u v1); [done| |done]. by apply wf_adj_sym.
Qed.

End cycle_facts.

Section cycle_claims.
Context {V : Type} `{!EqDecision V}.
Variable is_bipartite : @Graph V → bool.
Variable bipartite_sets : @Graph V → option (list V * list V).
Implicit Types (G : @Graph V) (u v w : V).

Local Abbreviation classify := (get_kuratowski_type is_bipartite bipartite_sets).

Lemma degree_one_not_complete G :
  wf G → (∀ u, u ∈ nodes G → degree G u = 1) → 3 ≤ number_of_nodes G →
  is_complete_graph_custom G = false.
Proof.
  intros Hwf Hdeg Hn. unfold is_complete_graph_custom.
  rewrite decide_False by lia.
  destruct G as [|[n l] G]; [simpl in Hn; lia|].
  assert (Hd : node_degree n l = 1).
  { specialize (Hdeg n (list_elem_of_here _ _)). unfold degree in Hdeg.
    rewrite (adj_elem _ n l) in Hdeg;
      [done|by apply wf_nodup|apply list_elem_of_here]. }
  unfold degree_view. rewrite fmap_cons. cbn [forallb fst snd]. rewrite Hd.
  rewrite bool_decide_eq_false_2; [done|]. unfold number_of_nodes in *. lia.
Qed.

(** The reducer on a graph whose nodes all have degree two. *)
Lemma all_degree_two_result G :
  wf G → simple G → G ≠ [] → (∀ u, u ∈ nodes G → degree G u = 2) →
  ∃ G',
    (∀ fuel, number_of_nodes G < fuel →
             get_kuratowski_minor fuel G = Some G') ∧
    wf G' ∧ G' ≠ [] ∧ (∀ u, u ∈ nodes G' → degree G' u = 1).
Proof.
  intros Hwf Hs Hne Hdeg.
  destruct (minor_result G Hwf Hs)
    as (G1 & G' & Hrun & _ & HG' & Hfuel & Hwf' & _ & _ & _).
  pose proof (copy_wf _ Hwf) as Hwfc. pose proof (copy_simple _ Hwf Hs) as Hsc.
  assert (HP : degrees_one_two (copy G)).
  { split.
    - intros Hnil. apply Hne. apply (f_equal nodes) in Hnil.
      rewrite nodes_copy in Hnil by done. by destruct G.
    - intros a Ha. rewrite nodes_copy in Ha by done.
      rewrite degree_copy by done. right. by apply Hdeg. }
  destruct (contract_loop_invariant degrees_one_two contract_degrees_one_two
              _ _ _ Hwfc Hsc HP Hrun) as (Hwf1 & Hs1 & [Hne1 Hdeg1] & Hd2).
  assert (Hone : ∀ u, u ∈ nodes G1 → degree G1 u = 1).
  { intros u Hu. destruct (Hdeg1 u Hu) as [|H2]; [done|].
    by apply (degree_two_nodes_nil G1 (wf_nodup _ Hwf1)) in H2. }
  assert (Hiso : isolates G1 = []).
  { rewrite isolates_eq by (by apply wf_nodup). apply filter_none, Forall_forall.
    intros x Hx. rewrite (Hone x Hx). lia. }
  rewrite Hiso in HG'. simpl in HG'. subst G'. by exists G1.
Qed.

(** C4, amended.  A graph without self-loops whose nodes all have degree
    two is not reduced to the empty graph: the reducer returns a graph
    that still has nodes, each of degree one (every cycle shrinks to one
    edge and no node becomes isolated).  On that result the classifier
    answers neither K5 nor K5-Subdivision, and answers UnresolvedMinor when
    fewer than six nodes are left; on the empty graph it answers
    UnresolvedMinor. *)
Theorem cycles_reduce_to_edges G :
  wf G → simple G → G ≠ [] → (∀ u, u ∈ nodes G → degree G u = 2) →
  (∃ G',
    (∀ fuel, number_of_nodes G < fuel →
             get_kuratowski_minor fuel G = Some G') ∧
    G' ≠ [] ∧ (∀ u, u ∈ nodes G' → degree G' u = 1) ∧
    classify G' ≠ label_text K5_label ∧
    classify G' ≠ label_text K5_Subdivision_label ∧
    (number_of_nodes G' < 6 → classify G' = label_text UnresolvedMinor)) ∧
  classify [] = label_text UnresolvedMinor.
Proof.
  intros Hwf Hs Hne Hdeg. split; [|done].
  destruct (all_degree_two_result G Hwf Hs Hne Hdeg)
    as (G' & Hfuel & Hwf' & Hne' & Hone).
  exists G'. split_and!; [done..| | |].
  - unfold get_kuratowski_type, k33_attempt.
    destruct (Nat.eqb_spec (number_of_nodes G') 5) as [H5|H5];
      [rewrite degree_one_not_complete by (done || lia)|];
      cbn [andb]; repeat case_match; simplify_eq; done.
  - unfold get_kuratowski_type, k33_attempt.
    destruct (Nat.leb_spec 5 (number_of_nodes G')) as [H5|H5];
      [rewrite degree_one_not_complete by (done || lia);
       rewrite ?andb_false_r|];
      cbn [andb]; repeat case_match; simplify_eq; done.
  - intros Hlt. unfold get_kuratowski_type.
    destruct (Nat.eqb_spec (number_of_nodes G') 6); [lia|].
    destruct (Nat.leb_spec 6 (number_of_nodes G')); [lia|].
    destruct (Nat.leb_spec 5 (number_of_nodes G')) as [H5|H5].
    + rewrite degree_one_not_complete by (done || lia).
      by rewrite !andb_false_r.
    + destruct (Nat.eqb_spec (number_of_nodes G') 5); [lia|done].
Qed.

End cycle_claims.

(** C4, as stated, fails on a cycle of three nodes: the reducer returns
    one edge, not the empty graph. *)
Lemma triangle_reduces_to_an_edge :
  wf triangle ∧ simple triangle ∧
  Forall (λ u, degree triangle u = 2) (nodes triangle) ∧
  get_kuratowski_minor 4 triangle = Some [(1, [2]); (2, [1])] ∧
  get_kuratowski_minor 4 triangle ≠ Some [].
Proof.
  split_and!.
  - apply (bool_decide_unpack _). vm_compute. exact I.
  - apply (bool_decide_unpack _). vm_compute. exact I.
  - apply (bool_decide_unpack _). vm_compute. exact I.
  - vm_compute. reflexivity.
  - vm_compute. discriminate.
Qed.

(** The triangle is left with one edge. *)
Lemma cycles_reduce_to_edges_witness :
  ∃ G', get_kuratowski_minor 4 triangle = Some G' ∧ G' ≠ [] ∧
        ∀ u, u ∈ nodes G' → degree G' u = 1.
Proof.
  destruct (cycles_reduce_to_edges (λ _, true) (λ _, None) triangle)
    as [(G' & Hrun & Hne & Hone & _) _].
  - apply (bool_decide_unpack _). vm_compute. exact I.
  - apply (bool_decide_unpack _). vm_compute. exact I.
  - vm_compute. discriminate.
  - apply Forall_forall. apply (bool_decide_unpack _). vm_compute. exact I.
  - exists G'. split_and!; [apply Hrun; vm_compute; lia|done..].
Defined.

(** * The graph built from the request's edge list *)

Section construction_claims.
Context {V : Type} `{!EqDecision V}.
Implicit Types (G : @Graph V) (u v w : V) (es : list (V * V)).

Lemma add_node_id G u : u ∈ nodes G → add_node G u = G.
Proof. intros Hu. unfold add_node. by rewrite decide_True. Qed.

Lemma adj_put_id G u v : v ∈ adj G u → adj_put G u v = G.
Proof.
  induction G as [|[n l] G IH]; cbn [adj adj_put]; [done|].
  destruct (decide (n = u)) as [->|Hne]; intros Hv.
  - unfold put. by rewrite decide_True.
  - by rewrite IH.
Qed.

(** Adding an edge that is there changes nothing. *)
Lemma add_edge_id G u v : v ∈ adj G u → u ∈ adj G v → add_edge G u v = G.
Proof.
  intros Hv Hu. unfold add_edge.
  pose proof (adj_is_node _ _ _ Hv) as Hnu.
  pose proof (adj_is_node _ _ _ Hu) as Hnv.
  rewrite (add_node_id G u Hnu), (add_node_id G v Hnv).
  by rewrite (adj_put_id G u v Hv), (adj_put_id G v u Hu).
Qed.

Lemma add_edge_idempotent G u v :
  add_edge (add_edge G u v) u v = add_edge G u v.
Proof. apply add_edge_id; apply elem_adj_add_edge; auto. Qed.

(** C6, amended.  The graph built from an edge list has no parallel edge:
    it is a well-formed adjacency structure (no neighbour is listed twice,
    adjacency is symmetric), two nodes are adjacent exactly when the list
    holds the pair in one of its two orders, and adding an edge that is
    present changes nothing.  A pair with equal endpoints is not rejected:
    it is stored as a self-loop, so the graph joins distinct nodes only
    when the edge list has no such pair. *)
Theorem constructed_graph_invariant es :
  let G := add_edges_from [] es in
  wf G ∧
  (∀ u v, has_edge G u v = true ↔ (u, v) ∈ es ∨ (v, u) ∈ es) ∧
  (∀ u v, has_edge G u v = true → add_edge G u v = G) ∧
  (∀ G' u v, add_edge (add_edge G' u v) u v = add_edge G' u v) ∧
  (simple G ↔ ∀ e, e ∈ es → e.1 ≠ e.2).
Proof.
  intros G.
  assert (Hwf : wf G).
  { apply add_edges_from_wf, wf_alt. split_and!; [constructor|constructor|].
    intros u v []%elem_of_nil. }
  assert (Hadj : ∀ u v, v ∈ adj G u ↔ (u, v) ∈ es ∨ (v, u) ∈ es).
  { intros u v. unfold G. rewrite elem_adj_add_edges_from. simpl.
    rewrite elem_of_nil. tauto. }
  split_and!; [done|..].
  - intros u v. unfold has_edge. by rewrite bool_decide_eq_true.
  - intros u v He. apply bool_decide_eq_true in He.
    apply add_edge_id; [done|by apply wf_adj_sym].
  - intros. apply add_edge_idempotent.
  - rewrite simple_alt by (by apply wf_nodup). split.
    + intros Hs [u v] He Heq. simpl in Heq. subst v.
      apply (Hs u), Hadj. by left.
    + intros Hes u [He|He]%Hadj; by apply (Hes _ He).
Qed.

End construction_claims.

(** C6, as stated, fails on an edge list with a pair of equal endpoints:
    the pair is stored as a self-loop. *)
Lemma self_loop_is_stored :
  add_edges_from [] [(0, 0)] = [(0, [0])] ∧
  has_edge (add_edges_from [] [(0, 0)]) 0 0 = true ∧
  add_edge [] 0 0 ≠ [] ∧
  (simple (add_edges_from [] [(0, 0)]) → False).
Proof.
  split_and!.
  - vm_compute. reflexivity.
  - vm_compute. reflexivity.
  - vm_compute. discriminate.
  - apply (bool_decide_unpack _). vm_compute. exact I.
Qed.

(** * The renderer *)

Section minmax_facts.
Local Open Scope Q_scope.








End minmax_facts.

Section render_facts.
Context {V : Type} `{!EqDecision V}.
Variable node_lt : V → V → bool.
Variable node_str : V → string.
Implicit Types (G : @Graph V) (pos : @Pos V) (hl : list (V * V))
  (p : @svg_part V) (st : node_style) (n u v : V).

Local Abbreviation render := (graph_to_svg node_lt node_str).


Lemma elem_normal_lines G pos hl st p :
  p ∈ normal_lines node_lt G pos hl st ↔
  ∃ u v x1 y1 x2 y2,
    (u, v) ∈ edges G ∧ pos_get pos u = Some (x1, y1) ∧
    pos_get pos v = Some (x2, y2) ∧ (sorted_pair node_lt (u, v) ∉ hl) ∧
    p = SvgLine u v x1 y1 x2 y2 normal_line (edge_color st).
Proof.
  unfold normal_lines. rewrite list_elem_of_bind. split.
  - intros ([u v] & Hp & He). cbn [fst snd] in Hp.
    destruct (pos_get pos u) as [[x1 y1]|] eqn:Hu; [|by apply elem_of_nil in Hp].
    destruct (pos_get pos v) as [[x2 y2]|] eqn:Hv; [|by apply elem_of_nil in Hp].
    destruct (decide (sorted_pair node_lt (u, v) ∈ hl)) as [|Hn];
      [by apply elem_of_nil in Hp|].
    apply list_elem_of_singleton in Hp. by exists u, v, x1, y1, x2, y2.
  - intros (u & v & x1 & y1 & x2 & y2 & He & Hu & Hv & Hn & ->).
    exists (u, v). split; [|done]. cbn [fst snd]. rewrite Hu, Hv.
    rewrite decide_False by done. apply list_elem_of_here.
Qed.

Lemma elem_highlight_lines pos hl st p :
  p ∈ highlight_lines pos hl st ↔
  ∃ u v x1 y1 x2 y2,
    (u, v) ∈ hl ∧ pos_get pos u = Some (x1, y1) ∧
    pos_get pos v = Some (x2, y2) ∧
    p = SvgLine u v x1 y1 x2 y2 highlight_line (highlight_color st).
Proof.
  unfold highlight_lines. rewrite list_elem_of_bind. split.
  - intros ([u v] & Hp & He). cbn [fst snd] in Hp.
    destruct (pos_get pos u) as [[x1 y1]|] eqn:Hu; [|by apply elem_of_nil in Hp].
    destruct (pos_get pos v) as [[x2 y2]|] eqn:Hv; [|by apply elem_of_nil in Hp].
    apply list_elem_of_singleton in Hp. by exists u, v, x1, y1, x2, y2.
  - intros (u & v & x1 & y1 & x2 & y2 & He & Hu & Hv & ->).
    exists (u, v). split; [|done]. cbn [fst snd]. rewrite Hu, Hv.
    apply list_elem_of_here.
Qed.

Lemma elem_node_parts G pos st p :
  p ∈ node_parts node_str G pos st ↔
  ∃ n x y,
    n ∈ nodes G ∧ pos_get pos n = Some (x, y) ∧
    (p = SvgCircle n x y (node_radius st) (node_color st) (node_stroke st) ∨
     p = SvgText n x y
           (if Qlt_le_dec 10 (node_radius st) then node_radius st else 10%Q)
           (label_color st) (html_escape (node_str n))).
Proof.
  unfold node_parts. rewrite list_elem_of_bind. split.
  - intros (n & Hp & Hn).
    destruct (pos_get pos n) as [[x y]|] eqn:Hg; [|by apply elem_of_nil in Hp].
    exists n, x, y. split_and!; [done..|].
    apply elem_of_cons in Hp as [->|Hp]; [by left|].
    apply list_elem_of_singleton in Hp. by right.
  - intros (n & x & y & Hn & Hg & Hp). exists n. split; [|done]. rewrite Hg.
    destruct Hp as [-> | ->];
      [apply list_elem_of_here|apply list_elem_of_further, list_elem_of_here].
Qed.

(** What the rendered document consists of. *)
Lemma elem_render G pos highlight title wpx hpx st p :
  p ∈ render G pos highlight title wpx hpx st ↔
  p = XmlDeclaration ∨
  (∃ vbx vby vbw vbh,
     viewbox pos = (vbx, vby, vbw, vbh) ∧ p = SvgOpen vbx vby vbw vbh wpx hpx) ∨
  (∃ c t, title = Some (String c t) ∧ p = SvgTitle (html_escape (String c t))) ∨
  p ∈ normal_lines node_lt G pos
        (remove_dups (sorted_pair node_lt <$> highlight)) st ∨
  p ∈ highlight_lines pos
        (remove_dups (sorted_pair node_lt <$> highlight)) st ∨
  p ∈ node_parts node_str G pos st ∨
  p = SvgClose.
Proof.
  unfold graph_to_svg. destruct (viewbox pos) as [[[vbx vby] vbw] vbh].
  rewrite !elem_of_app.
  assert (Hhead : p ∈ [XmlDeclaration; SvgOpen vbx vby vbw vbh wpx hpx] ↔
            p = XmlDeclaration ∨ p = SvgOpen vbx vby vbw vbh wpx hpx).
  { rewrite elem_of_cons, list_elem_of_singleton. done. }
  assert (Htitle : p ∈ match title with
                       | Some (String c t) => [SvgTitle (html_escape (String c t))]
                       | _ => []
                       end ↔
            ∃ c t, title = Some (String c t) ∧
                   p = SvgTitle (html_escape (String c t))).
  { destruct title as [[|c t]|].
    - rewrite elem_of_nil. split; [done|]. by intros (? & ? & ? & _).
    - rewrite list_elem_of_singleton. split.
      + intros ->. by exists c, t.
      + by intros (? & ? & [= <- <-] & ->).
    - rewrite elem_of_nil. split; [done|]. by intros (? & ? & ? & _). }
  rewrite Hhead, Htitle, list_elem_of_singleton. split.
  - intros [[?|?]|?]; [by left| |by do 2 right].
    right. left. by exists vbx, vby, vbw, vbh.
  - intros [?|[(a & b & c & d & [= <- <- <- <-] & ->)|?]];
      [by left; left|by left; right|by right].
Qed.

End render_facts.

Section viewport_claims.
Context {V : Type} `{!EqDecision V}.
Variable node_lt : V → V → bool.
Variable node_str : V → string.
Implicit Types (G : @Graph V) (pos : @Pos V) (hl : list (V * V))
  (p : @svg_part V) (st : node_style) (n u v : V).
Local Open Scope Q_scope.

Local Abbreviation render := (graph_to_svg node_lt node_str).



End viewport_claims.

Section line_claims.
Context {V : Type} `{!EqDecision V}.
Variable node_lt : V → V → bool.
Variable node_str : V → string.
Implicit Types (G : @Graph V) (pos : @Pos V) (hl : list (V * V))
  (p : @svg_part V) (st : node_style) (n u v : V).

Local Abbreviation render := (graph_to_svg node_lt node_str).
Local Abbreviation canon := (sorted_pair node_lt).

Lemma sorted_pair_cases (e : V * V) : canon e = e ∨ canon e = (e.2, e.1).
Proof. unfold sorted_pair. destruct (node_lt e.2 e.1); auto. Qed.

Lemma edges_from_elem seen G u v :
  (u, v) ∈ edges_from seen G → ∃ nbrs, (u, nbrs) ∈ G ∧ v ∈ nbrs.
Proof.
  revert seen. induction G as [|[n l] G IH]; intros seen; cbn [edges_from].
  - by intros ?%elem_of_nil.
  - rewrite elem_of_app. intros [Hin|Hin].
    + apply list_elem_of_fmap in Hin as (y & [= -> ->] & Hy).
      apply list_elem_of_filter in Hy as [_ Hy].
      exists l. split; [apply list_elem_of_here|done].
    + apply IH in Hin as (nbrs & Hin & Hv). exists nbrs.
      split; [by apply list_elem_of_further|done].
Qed.

Lemma edges_adj G u v : wf G → (u, v) ∈ edges G → v ∈ adj G u.
Proof.
  intros Hwf (nbrs & Hin & Hv)%edges_from_elem.
  by rewrite (adj_elem _ _ _ (wf_nodup _ Hwf) Hin).
Qed.


(** C5, amended.  The plain lines of the document are the positioned edges
    of the graph whose sorted pair is not in the highlight set.  The
    emphasized lines are the sorted pairs of the highlight set whose two
    nodes have positions, edges of the graph or not.  When every highlight
    pair is an edge of the graph, every line joins two adjacent nodes and
    every positioned edge of the graph is drawn, plain or emphasized. *)
Theorem highlight_lines_drawn G pos highlight title wpx hpx st :
  let out := render G pos highlight title wpx hpx st in
  (∀ u v x1 y1 x2 y2 s,
     SvgLine u v x1 y1 x2 y2 normal_line s ∈ out ↔
     (u, v) ∈ edges G ∧ pos_get pos u = Some (x1, y1) ∧
     pos_get pos v = Some (x2, y2) ∧
     (¬ ∃ e, e ∈ highlight ∧ canon (u, v) = canon e) ∧
     s = edge_color st) ∧
  (∀ u v x1 y1 x2 y2 s,
     SvgLine u v x1 y1 x2 y2 highlight_line s ∈ out ↔
     (∃ e, e ∈ highlight ∧ (u, v) = canon e) ∧
     pos_get pos u = Some (x1, y1) ∧ pos_get pos v = Some (x2, y2) ∧
     s = highlight_color st) ∧
  (wf G → (∀ e, e ∈ highlight → has_edge G e.1 e.2 = true) →
   (∀ u v x1 y1 x2 y2 k s,
      SvgLine u v x1 y1 x2 y2 k s ∈ out → has_edge G u v = true) ∧
   (∀ u v x1 y1 x2 y2,
      (u, v) ∈ edges G → pos_get pos u = Some (x1, y1) →
      pos_get pos v = Some (x2, y2) →
      SvgLine u v x1 y1 x2 y2 normal_line (edge_color st) ∈ out ∨
      SvgLine u v x1 y1 x2 y2 highlight_line (highlight_color st) ∈ out ∨
      SvgLine v u x2 y2 x1 y1 highlight_line (highlight_color st) ∈ out)).
Proof.
  intros out.
  assert (Hhl : ∀ a, a ∈ remove_dups (canon <$> highlight) ↔
                     ∃ e, e ∈ highlight ∧ a = canon e).
  { intros a. rewrite elem_of_remove_dups, list_elem_of_fmap. naive_solver. }
  assert (Hnormal : ∀ u v x1 y1 x2 y2 s,
     SvgLine u v x1 y1 x2 y2 normal_line s ∈ out ↔
     (u, v) ∈ edges G ∧ pos_get pos u = Some (x1, y1) ∧
     pos_get pos v = Some (x2, y2) ∧
     (¬ ∃ e, e ∈ highlight ∧ canon (u, v) = canon e) ∧
     s = edge_color st).
  { intros u v x1 y1 x2 y2 s. unfold out. rewrite elem_render. split.
    - intros [?|[(? & ? & ? & ? & _ & ?)|[(? & ? & _ & ?)|
              [Hp|[Hp|[Hp|?]]]]]]; try done.
      + apply elem_normal_lines in Hp
          as (u'&v'&?&?&?&?&He&Hu&Hv&Hn&[= -> -> -> -> -> -> ->]).
        split_and!; try done. by rewrite <- Hhl.
      + by apply elem_highlight_lines in Hp as (?&?&?&?&?&?&_&_&_&?).
      + by apply elem_node_parts in Hp as (? & ? & ? & _ & _ & [?|?]).
    - intros (He & Hu & Hv & Hn & ->). do 3 right. left.
      apply elem_normal_lines. exists u, v, x1, y1, x2, y2.
      split_and!; try done. by rewrite Hhl. }
  assert (Hhigh : ∀ u v x1 y1 x2 y2 s,
     SvgLine u v x1 y1 x2 y2 highlight_line s ∈ out ↔
     (∃ e, e ∈ highlight ∧ (u, v) = canon e) ∧
     pos_get pos u = Some (x1, y1) ∧ pos_get pos v = Some (x2, y2) ∧
     s = highlight_color st).
  { intros u v x1 y1 x2 y2 s. unfold out. rewrite elem_render. split.
    - intros [?|[(? & ? & ? & ? & _ & ?)|[(? & ? & _ & ?)|
              [Hp|[Hp|[Hp|?]]]]]]; try done.
      + by apply elem_normal_lines in Hp as (?&?&?&?&?&?&_&_&_&_&?).
      + apply elem_highlight_lines in Hp
          as (u'&v'&?&?&?&?&He&Hu&Hv&[= -> -> -> -> -> -> ->]).
        split_and!; try done. by rewrite <- Hhl.
      + by apply elem_node_parts in Hp as (? & ? & ? & _ & _ & [?|?]).
    - intros (He & Hu & Hv & ->). do 4 right. left.
      apply elem_highlight_lines. exists u, v, x1, y1, x2, y2.
      split_and!; try done. by rewrite Hhl. }
  split_and!; [done..|]. intros Hwf Hsub. split.
  - intros u v x1 y1 x2 y2 [] s Hline.
    + apply Hnormal in Hline as (He & _). apply bool_decide_eq_true.
      by apply edges_adj.
    + apply Hhigh in Hline as ((e & He & Heq) & _).
      specialize (Hsub e He). apply bool_decide_eq_true in Hsub.
      apply bool_decide_eq_true.
      destruct (sorted_pair_cases e) as [Hc|Hc]; rewrite Hc in Heq;
        destruct e as [a b]; simplify_eq/=; [done|by apply wf_adj_sym].
  - intros u v x1 y1 x2 y2 He Hu Hv.
    destruct (decide (canon (u, v) ∈ remove_dups (canon <$> highlight)))
      as [Hex|Hnex]; rewrite Hhl in Hex || rewrite Hhl in Hnex.
    + right. destruct (sorted_pair_cases (u, v)) as [Hc|Hc].
      * left. apply Hhigh. split_and!; try done.
        destruct Hex as (e & ? & Heq). exists e. by rewrite <- Heq, Hc.
      * right. apply Hhigh. split_and!; try done.
        destruct Hex as (e & ? & Heq). exists e. by rewrite <- Heq, Hc.
    + left. by apply Hnormal.
Qed.

End line_claims.

(** C5, as stated, fails when a highlight pair is not an edge of the graph
    and its two nodes have positions: the pair is drawn, emphasized. *)
Lemma non_edge_highlight_is_drawn :
  has_edge path_graph 0 2 = false ∧
  SvgLine 0 2 0 0 2 1 highlight_line "#e63946"
    ∈ render_nat path_graph path_positions [(2, 0)].
Proof.
  split; [vm_compute; reflexivity|].
  apply list_elem_of_In. vm_compute. do 4 right. left. reflexivity.
Qed.

(** With the edge between 1 and 2 highlighted, every line of the path's
    drawing joins adjacent nodes. *)
Lemma highlight_lines_drawn_witness :
  Forall (λ p, match p with
               | SvgLine u v _ _ _ _ _ _ => has_edge path_graph u v = true
               | _ => True
               end)
    (render_nat path_graph path_positions [(2, 1)]).
Proof.
  apply Forall_forall. intros p Hp.
  destruct (highlight_lines_drawn Nat.ltb nat_str path_graph path_positions
              [(2, 1)] None 800%Z 800%Z default_style) as (_ & _ & Hsub).
  destruct Hsub as [Hadj _].
  - apply (bool_decide_unpack _). vm_compute. exact I.
  - apply Forall_forall. repeat constructor.
  - destruct p; try exact I. by eapply Hadj.
Defined.


(** * The reducer works on a copy *)

Section heap_claims.
Context {V : Type} `{!EqDecision V}.
Implicit Types (G : @Graph V) (σ : heap V) (r g : nat).

Lemma update_spec r f σ G :
  σ !! r = Some G → update r f σ = Some (<[r := f G]> σ).
Proof. intros H. unfold update. by rewrite H. Qed.

Lemma contract_obj_spec g u σ G :
  σ !! g = Some G → contract_obj g u σ = Some (<[g := contract G u]> σ).
Proof.
  intros Hg. pose proof (lookup_lt_Some _ _ _ Hg) as Hlt.
  unfold contract_obj, contract, neighbors. rewrite Hg. simpl.
  destruct (adj G u) as [|v1 [|v2 [|? ?]]];
    try (by rewrite list_insert_id).
  destruct (decide (v1 ≠ v2 ∧ has_edge G v1 v2 = false)); simpl.
  - rewrite (update_spec _ _ _ _ Hg). simpl.
    rewrite (update_spec _ _ _ (add_edge G v1 v2))
      by (by apply list_lookup_insert_eq).
    by rewrite list_insert_insert_eq.
  - by rewrite (update_spec _ _ _ _ Hg).
Qed.

Lemma contract_loop_obj_spec fuel g σ G :
  σ !! g = Some G →
  contract_loop_obj fuel g σ =
    (G' ← contract_loop fuel G; Some (<[g := G']> σ)).
Proof.
  revert σ G. induction fuel as [|k IH]; intros σ G Hg; [done|].
  pose proof (lookup_lt_Some _ _ _ Hg) as Hlt.
  cbn [contract_loop_obj contract_loop]. rewrite Hg. simpl.
  destruct (degree_two_nodes G) as [|u rest].
  - simpl. by rewrite list_insert_id.
  - rewrite (contract_obj_spec _ _ _ _ Hg). simpl.
    rewrite (IH _ (contract G u)) by (by apply list_lookup_insert_eq).
    destruct (contract_loop k (contract G u)); simpl; [|done].
    by rewrite list_insert_insert_eq.
Qed.

(** The call on references computes what the function on graph values
    computes, puts it into a new object and changes no other. *)
Lemma get_kuratowski_minor_obj_spec fuel r σ :
  get_kuratowski_minor_obj fuel r σ =
    (G ← σ !! r; G' ← get_kuratowski_minor fuel G;
     Some (length σ, σ ++ [G'])).
Proof.
  unfold get_kuratowski_minor_obj, copy_obj, get_kuratowski_minor.
  destruct (σ !! r) as [G|]; [|done]. simpl.
  assert (Hg : (σ ++ [copy G]) !! length σ = Some (copy G))
    by (by apply list_lookup_middle).
  rewrite (contract_loop_obj_spec _ _ _ _ Hg).
  destruct (contract_loop fuel (copy G)) as [G1|]; [|done]. simpl.
  assert (Hlen : length σ < length (σ ++ [copy G]))
    by (rewrite length_app; simpl; lia).
  rewrite list_lookup_insert_eq by done. simpl.
  rewrite (update_spec _ _ _ G1) by (by apply list_lookup_insert_eq). simpl.
  rewrite list_insert_insert_eq.
  replace (length σ) with (length σ + 0) at 2 by lia.
  by rewrite insert_app_r.
Qed.

(** C10.  The reducer leaves its argument as it was.  A call on the
    reference [r] returns exactly when the function on graph values
    returns; it returns a reference that was not in use, and every object
    that was in the heap, the argument among them, is the same graph after
    the call, nodes and edges in their order.  On an argument without
    self-loops the call does return for every fuel above the node count. *)
Theorem reducer_leaves_input_unchanged fuel r σ :
  get_kuratowski_minor_obj fuel r σ =
    (G ← σ !! r; G' ← get_kuratowski_minor fuel G;
     Some (length σ, σ ++ [G'])) ∧
  (∀ g σ', get_kuratowski_minor_obj fuel r σ = Some (g, σ') →
           g ≠ r ∧ σ !! g = None ∧ σ' !! r = σ !! r ∧
           ∀ r' G, σ !! r' = Some G → σ' !! r' = Some G) ∧
  (∀ G, σ !! r = Some G → wf G → simple G → number_of_nodes G < fuel →
        ∃ g σ', get_kuratowski_minor_obj fuel r σ = Some (g, σ') ∧
                σ' !! r = Some G).
Proof.
  pose proof (get_kuratowski_minor_obj_spec fuel r σ) as Hspec.
  split_and!; [done|..].
  - intros g σ' Hrun. rewrite Hspec in Hrun.
    destruct (σ !! r) as [G|] eqn:Hr; [|done]. simpl in Hrun.
    destruct (get_kuratowski_minor fuel G) as [G'|]; [|done].
    simpl in Hrun. simplify_eq.
    pose proof (lookup_lt_Some _ _ _ Hr) as Hlt.
    split_and!.
    + lia.
    + by apply lookup_ge_None.
    + by rewrite lookup_app_l.
    + intros r' G0 Hr'. rewrite lookup_app_l; [done|].
      by eapply lookup_lt_Some.
  - intros G Hr Hwf Hs Hfuel.
    destruct (minor_result G Hwf Hs) as (_ & G' & _ & _ & _ & Hrun & _).
    exists (length σ), (σ ++ [G']). rewrite Hspec, Hr. simpl.
    rewrite (Hrun fuel Hfuel). simpl. split; [done|].
    rewrite lookup_app_l; [done|]. by eapply lookup_lt_Some.
Qed.

End heap_claims.

(** The object the caller holds is [K5_subdivided] before and after. *)
Lemma reducer_leaves_input_unchanged_witness :
  ∃ g σ', get_kuratowski_minor_obj 7 0 [K5_subdivided] = Some (g, σ') ∧
          σ' !! 0 = Some K5_subdivided.
Proof.
  destruct (reducer_leaves_input_unchanged 7 0 [K5_subdivided])
    as (_ & _ & Hret).
  apply (Hret K5_subdivided).
  - reflexivity.
  - apply (bool_decide_unpack _). vm_compute. exact I.
  - apply (bool_decide_unpack _). vm_compute. exact I.
  - vm_compute. lia.
Defined.

(** * Malformed payloads *)

Section request_claims.
Context {V : Type} `{!EqDecision V}.
Variable node_of : json → option V.
Variable node_lt : V → V → bool.
Variable node_str : V → string.
Variable float_of_string : string → option Q.
Variable exception_text : py_exception → string.
Variable check_planarity : @Graph V → option (@Graph V).
Variable circular_layout : @Graph V → @Pos V.
Variable is_bipartite : @Graph V → bool.
Variable bipartite_sets : @Graph V → option (list V * list V).

Local Abbreviation visualize :=
  (visualize_planarity_test node_of node_lt node_str float_of_string
     exception_text check_planarity circular_layout is_bipartite
     bipartite_sets).
Local Abbreviation endpoint :=
  (planarity_api node_of node_lt node_str float_of_string exception_text
     check_planarity circular_layout is_bipartite bipartite_sets).

(** A payload that does not parse yields no image, and the message goes
    to the fifth place of the tuple, where the caller expects the
    Kuratowski type; the fourth, the title, is [None]. *)
Lemma parse_failure_returns data e :
  parse_graph_data node_of float_of_string data = Raise e →
  visualize data =
    Returns {| svg_original_b := None; svg_sub_b := None; svg_minor_b := None;
               title_of := None;
               kuratowski_type_of :=
                 Some ("Data parsing error: " ++ exception_text e)%string;
               kuratowski_edges_of := None |}.
Proof. intros H. unfold visualize_planarity_test. by rewrite H. Qed.

(** The endpoint answers such a payload with status 400, and with the
    title for its error: no message at all. *)
Lemma parse_failure_answer data e :
  parse_graph_data node_of float_of_string data = Raise e →
  truthy data = true → contains data "nodes" = Ok true →
  contains data "edges" = Ok true →
  endpoint data = BadRequest None.
Proof.
  intros Hparse Ht Hn He. unfold planarity_api.
  rewrite Ht, Hn, He, (parse_failure_returns _ _ Hparse). done.
Qed.

(** C7 on [malformed_payload]: the parsing raises [KeyError], no image is
    produced, the message is returned in the place of the Kuratowski type,
    and the endpoint's 400 answer carries [None] for its error.  The
    Matplotlib entry point returns the message in the place its endpoint
    reads. *)
Theorem malformed_payload_error_is_lost :
  parse_graph_data node_of float_of_string malformed_payload
    = Raise (KeyError "source") ∧
  visualize malformed_payload =
    Returns {| svg_original_b := None; svg_sub_b := None; svg_minor_b := None;
               title_of := None;
               kuratowski_type_of :=
                 Some ("Data parsing error: "
                       ++ exception_text (KeyError "source"))%string;
               kuratowski_edges_of := None |} ∧
  endpoint malformed_payload = BadRequest None ∧
  (matplotlib_parse_failure (V:=V) exception_text (KeyError "source")).1.2
    = Some ("Data parsing error: Missing key or incorrect type. Details: "
            ++ exception_text (KeyError "source"))%string.
Proof.
  assert (Hparse : parse_graph_data node_of float_of_string malformed_payload
                   = Raise (KeyError "source")) by reflexivity.
  split_and!; [done| |by apply (parse_failure_answer _ _ Hparse)|done].
  by apply parse_failure_returns.
Qed.

End request_claims.

(** * Self-loops and the fuel of the model *)

Section fuel_facts.
Context {V : Type} `{!EqDecision V}.
Implicit Types (G : @Graph V) (u v w : V).

(** An iteration either leaves the graph as it is or takes a node away. *)
Lemma contract_cases G u rest :
  wf G → degree_two_nodes G = u :: rest →
  contract G u = G ∨
  (wf (contract G u) ∧ number_of_nodes (contract G u) + 1 = number_of_nodes G).
Proof.
  intros Hwf Heq. destruct (degree_two_nodes_head _ _ _ Hwf Heq) as [Hu _].
  unfold contract, neighbors.
  destruct (adj G u) as [|v1 [|v2 [|? ?]]] eqn:Hadj; auto.
  right.
  assert (Hv1 : v1 ∈ nodes G).
  { apply (adj_is_node G v1 u), wf_adj_sym; [done|].
    rewrite Hadj. apply list_elem_of_here. }
  assert (Hv2 : v2 ∈ nodes G).
  { apply (adj_is_node G v2 u), wf_adj_sym; [done|].
    rewrite Hadj. apply list_elem_of_further, list_elem_of_here. }
  set (G1 := if decide (v1 ≠ v2 ∧ has_edge G v1 v2 = false)
             then add_edge G v1 v2 else G).
  assert (Hwf1 : wf G1) by (unfold G1; case_match; auto using add_edge_wf).
  assert (Hn1 : nodes G1 = nodes G)
    by (unfold G1; case_match; auto using nodes_add_edge_in).
  split; [by apply remove_node_wf|].
  rewrite (length_remove_node G1 u); [|done|by rewrite Hn1].
  unfold number_of_nodes. rewrite <- (length_fmap fst G1), <- (length_fmap fst G).
  fold (nodes G1). fold (nodes G). by rewrite Hn1.
Qed.

Lemma contract_loop_stuck G u rest fuel :
  degree_two_nodes G = u :: rest → contract G u = G →
  contract_loop fuel G = None.
Proof.
  intros Heq Hsame. induction fuel as [|k IH]; [done|].
  simpl. by rewrite Heq, Hsame.
Qed.

(** One unit of fuel per node and one more decide whether the loop stops:
    when that is not enough, no amount is. *)
Lemma contract_loop_fuel_exact G :
  wf G → contract_loop (S (number_of_nodes G)) G = None →
  ∀ fuel, contract_loop fuel G = None.
Proof.
  remember (number_of_nodes G) as k eqn:Hk. revert G Hk.
  induction k as [|k IH]; intros G Hk Hwf Hnone fuel.
  - destruct G; [|done]. simpl in Hnone. done.
  - destruct fuel as [|f]; [done|]. cbn [contract_loop] in *.
    destruct (degree_two_nodes G) as [|u rest] eqn:Heq; [done|].
    destruct (contract_cases _ _ _ Hwf Heq) as [Hsame|[Hwf' Hlen]].
    + rewrite Hsame. by apply (contract_loop_stuck _ u rest).
    + apply IH; [lia|done..].
Qed.

End fuel_facts.

(** On a node with a loop on itself the reducer's loop never stops: the
    node has degree two and one neighbour, so nothing is removed. *)
Lemma self_loop_never_stops fuel : get_kuratowski_minor fuel loop_graph = None.
Proof.
  unfold get_kuratowski_minor.
  rewrite (contract_loop_stuck (copy loop_graph) 0 [] fuel); done.
Qed.

(** Scenario 4 of the specification: the complete graph on five nodes
    with one edge subdivided reduces to a complete graph on the five
    nodes, and the classifier names it. *)
Lemma subdivided_K5_is_classified
  (is_bipartite : @Graph nat → bool)
  (bipartite_sets : @Graph nat → option (list nat * list nat)) :
  ∃ G', get_kuratowski_minor 7 K5_subdivided = Some G' ∧
        nodes G' = [0; 1; 2; 3; 4] ∧
        Forall (λ u, Forall (λ v, u = v ∨ has_edge G' u v = true) (nodes G'))
          (nodes G') ∧
        get_kuratowski_type is_bipartite bipartite_sets G' = "K_5"%string.
Proof.
  eexists. split; [vm_compute; reflexivity|].
  split; [reflexivity|]. split; [|reflexivity].
  apply (bool_decide_unpack _). vm_compute. exact I.
Qed.

(** * Further properties of the code *)

(** ** The completeness test and the classifier *)

Section complete_extras.
Context {V : Type} `{!EqDecision V}.
Variable is_bipartite : @Graph V → bool.
Variable bipartite_sets : @Graph V → option (list V * list V).
Implicit Types (G : @Graph V) (u v w : V).

Local Abbreviation classify := (get_kuratowski_type is_bipartite bipartite_sets).

Lemma is_complete_degrees G :
  NoDup (nodes G) →
  is_complete_graph_custom G = true ↔
  ∀ u, u ∈ nodes G → degree G u = number_of_nodes G - 1.
Proof.
  intros Hnd. unfold is_complete_graph_custom.
  destruct (decide (number_of_nodes G = 0)) as [H0|H0].
  - split; [|done]. intros _ u Hu. destruct G; [by apply elem_of_nil in Hu|done].
  - rewrite degree_view_nodes by done.
    rewrite <- Is_true_true, forallb_True, Forall_fmap, Forall_forall.
    split.
    + intros Hall u Hu. specialize (Hall u Hu). simpl in Hall.
      by apply bool_decide_unpack in Hall.
    + intros Hall u Hu. simpl. apply bool_decide_pack. by apply Hall.
Qed.

(** In a graph without self-loops the neighbours of a node are among the
    other nodes. *)
Lemma adj_among_others G u :
  wf G → simple G → adj G u ⊆+ filter (λ w, w ≠ u) (nodes G).
Proof.
  intros Hwf Hs. apply NoDup_submseteq; [by apply wf_adj_nodup|].
  intros x Hx. apply list_elem_of_filter. split.
  - intros ->. by apply (simple_adj G u).
  - eapply adj_is_node. by apply wf_adj_sym.
Qed.

(** X1.  On a graph without self-loops the degree test of
    [is_complete_graph_custom] answers [True] exactly when every two
    distinct nodes are adjacent. *)
Theorem complete_iff_all_adjacent G :
  wf G → simple G →
  is_complete_graph_custom G = true ↔
  ∀ u v, u ∈ nodes G → v ∈ nodes G → u ≠ v → has_edge G u v = true.
Proof.
  intros Hwf Hs. pose proof (wf_nodup _ Hwf) as Hnd.
  rewrite is_complete_degrees by done.
  assert (Hlen : ∀ u, u ∈ nodes G →
            length (filter (λ w, w ≠ u) (nodes G)) = number_of_nodes G - 1).
  { intros u Hu. pose proof (length_filter_ne (nodes G) u Hnd Hu) as H.
    unfold number_of_nodes, nodes in *. rewrite length_fmap in H. lia. }
  split.
  - intros Hdeg u v Hu Hv Hne. apply bool_decide_eq_true.
    specialize (Hdeg u Hu). rewrite degree_simple in Hdeg by done.
    assert (Hp : adj G u ≡ₚ filter (λ w, w ≠ u) (nodes G)).
    { apply submseteq_length_Permutation; [by apply adj_among_others|].
      rewrite Hlen by done. lia. }
    rewrite Hp. apply list_elem_of_filter. split; [congruence|done].
  - intros Hall u Hu. rewrite degree_simple by done.
    rewrite <- (Hlen u Hu). apply Permutation_length.
    apply NoDup_Permutation;
      [by apply wf_adj_nodup|by apply NoDup_filter|].
    intros x. split.
    + intros Hx. by apply (elem_of_submseteq (adj G u)); [|apply adj_among_others].
    + intros [Hne Hx]%list_elem_of_filter.
      specialize (Hall u x Hu Hx (not_eq_sym Hne)).
      by apply bool_decide_eq_true in Hall.
Qed.

(** X2.  Which graphs get which label.  ["K_5"] is returned exactly for
    five nodes that pass the completeness test, so the test "at least 5
    nodes and complete" only ever names graphs of six nodes or more;
    ["K_3,3"] needs six nodes and a bipartition in classes of three;
    ["K_3,3 Subdivision"] needs six nodes or more and a graph that fails
    the completeness test; a graph of fewer than five nodes is always a
    ["Kuratowski Minor"]; and no other string is returned. *)
Theorem classifier_labels G :
  (classify G = "K_5"%string
   ↔ number_of_nodes G = 5 ∧ is_complete_graph_custom G = true) ∧
  (classify G = "K_5 Subdivision"%string
   → 6 ≤ number_of_nodes G ∧ is_complete_graph_custom G = true) ∧
  (classify G = "K_3,3"%string
   → number_of_nodes G = 6 ∧ is_bipartite G = true ∧
     ∃ p1 p2, bipartite_sets G = Some (p1, p2) ∧ length p1 = 3 ∧ length p2 = 3) ∧
  (classify G = "K_3,3 Subdivision"%string
   → 6 ≤ number_of_nodes G ∧ is_bipartite G = true ∧
     is_complete_graph_custom G = false) ∧
  (number_of_nodes G < 5 → classify G = "Kuratowski Minor"%string) ∧
  classify G ∈ label_text <$>
    [K5_label; K33_label; K5_Subdivision_label; K33_Subdivision_label;
     UnresolvedMinor].
Proof.
  unfold get_kuratowski_type, k33_attempt.
  destruct (Nat.eqb_spec (number_of_nodes G) 5) as [H5|H5];
    destruct (Nat.eqb_spec (number_of_nodes G) 6) as [H6|H6];
    destruct (Nat.leb_spec 5 (number_of_nodes G)) as [L5|L5];
    destruct (Nat.leb_spec 6 (number_of_nodes G)) as [L6|L6];
    try lia;
    destruct (is_complete_graph_custom G), (is_bipartite G); cbn [andb];
    try (destruct (bipartite_sets G) as [[p1 p2]|];
         [destruct (Nat.eqb_spec (length p1) 3), (Nat.eqb_spec (length p2) 3)|];
         cbn [andb]);
    (split_and!;
     [split; [try done; intros; split; (done || lia) | by intros [? ?]; try lia]
     |try done; intros; split; (done || lia)
     |try done; intros _; split_and!; try done; eauto
     |try done; intros; split_and!; (done || lia)
     |try done; intros; lia
     |cbn; rewrite !elem_of_cons; auto 10]).
Qed.

End complete_extras.

(** The complete graph on five nodes passes the test, and any two of its
    nodes are adjacent. *)
Lemma complete_iff_all_adjacent_witness :
  is_complete_graph_custom K5_graph = true ∧
  Forall (λ u, Forall (λ v, u = v ∨ has_edge K5_graph u v = true)
                 (nodes K5_graph))
    (nodes K5_graph).
Proof.
  split; [reflexivity|].
  assert (Hwf : wf K5_graph)
    by (apply (bool_decide_unpack _); vm_compute; exact I).
  assert (Hs : simple K5_graph)
    by (apply (bool_decide_unpack _); vm_compute; exact I).
  pose proof (proj1 (complete_iff_all_adjacent K5_graph Hwf Hs) eq_refl)
    as Hall.
  apply (proj2 (Forall_forall
                  (λ u, Forall (λ v, u = v ∨ has_edge K5_graph u v = true)
                          (nodes K5_graph))
                  (nodes K5_graph))).
  intros u Hu.
  apply (proj2 (Forall_forall (λ v, u = v ∨ has_edge K5_graph u v = true)
                  (nodes K5_graph))).
  intros v Hv. destruct (decide (u = v)) as [Heq|Hne]; [by left|].
  right. by apply Hall.
Defined.

(** ** What the reducer keeps *)

Section reducer_extras.
Context {V : Type} `{!EqDecision V}.
Implicit Types (G : @Graph V) (u v w a b : V).

(** The neighbourhoods after one iteration. *)
Lemma elem_adj_contract G u rest v1 v2 a b :
  wf G → simple G → degree_two_nodes G = u :: rest → adj G u = [v1; v2] →
  b ∈ adj (contract G u) a ↔
  a ≠ u ∧ b ≠ u ∧ (b ∈ adj G a ∨ (a = v1 ∧ b = v2) ∨ (a = v2 ∧ b = v1)).
Proof.
  intros Hwf Hs Heq Hadj.
  destruct (selected_neighbors _ _ _ Hwf Hs Heq)
    as (v1' & v2' & Hadj' & Hne & _).
  rewrite Hadj in Hadj'. simplify_eq.
  rewrite (contract_eq _ _ _ _ Hadj Hne).
  destruct (has_edge G v1' v2') eqn:He.
  - apply bool_decide_eq_true in He.
    rewrite elem_adj_remove_node by done. split; [tauto|].
    intros (? & ? & [?|[[-> ->]|[-> ->]]]); split_and!; try done.
    by apply wf_adj_sym.
  - rewrite elem_adj_remove_node by (by apply add_edge_wf).
    rewrite elem_adj_add_edge. tauto.
Qed.

Lemma contract_kept_from G0 G u rest :
  wf G → simple G → kept_from G0 G → degree_two_nodes G = u :: rest →
  kept_from G0 (contract G u).
Proof.
  intros Hwf Hs (Hsub & Hdeg & Hedge) Heq.
  destruct (selected_neighbors _ _ _ Hwf Hs Heq)
    as (v1 & v2 & Hadj & _).
  destruct (contract_step _ _ _ Hwf Hs Heq)
    as (Hwf' & Hs' & Hn & _ & _ & Hu).
  split_and!.
  - rewrite Hn. etrans; [apply sublist_filter|done].
  - intros a. etrans; [|apply Hdeg].
    destruct (decide (a = u)) as [->|Hne].
    + rewrite degree_simple by done. rewrite Hu. simpl. lia.
    + rewrite !degree_simple by done.
      rewrite (contract_adj_length _ _ _ _ _ _ Hwf Hs Heq Hadj Hne).
      repeat case_match; lia.
  - intros a b Ha Hb Hab. rewrite Hn in Ha, Hb.
    apply list_elem_of_filter in Ha as [Hau Ha], Hb as [Hbu Hb].
    apply (elem_adj_contract _ _ _ _ _ _ _ Hwf Hs Heq Hadj).
    split_and!; [done..|]. left. by apply Hedge.
Qed.

(** X3.  On a graph without self-loops the reducer only contracts: its
    result is again a well-formed graph without self-loops, its nodes are
    nodes of the input in the input's order, no node has a larger degree
    than it had, and two nodes that were adjacent and are both kept are
    still adjacent. *)
Theorem reducer_only_contracts G :
  wf G → simple G →
  ∃ G',
    (∀ fuel, number_of_nodes G < fuel →
             get_kuratowski_minor fuel G = Some G') ∧
    wf G' ∧ simple G' ∧
    nodes G' `sublist_of` nodes G ∧
    (∀ u, degree G' u ≤ degree G u) ∧
    (∀ a b, a ∈ nodes G' → b ∈ nodes G' →
            has_edge G a b = true → has_edge G' a b = true).
Proof.
  intros Hwf Hs.
  destruct (minor_result G Hwf Hs)
    as (G1 & G' & Hrun & Hd2 & -> & Hfuel & Hwf' & Hs' & _).
  pose proof (copy_wf _ Hwf) as Hwfc. pose proof (copy_simple _ Hwf Hs) as Hsc.
  assert (Hstart : kept_from (copy G) (copy G)) by (split_and!; done).
  destruct (contract_loop_invariant (kept_from (copy G))
              (contract_kept_from (copy G)) _ _ _ Hwfc Hsc Hstart Hrun)
    as (Hwf1 & Hs1 & (Hsub & Hdeg & Hedge) & _).
  destruct (minor_output G1 Hwf1 Hs1 Hd2) as (_ & _ & Hadj & Hnodes & _).
  exists (remove_nodes_from G1 (isolates G1)). split_and!; [done..| | |].
  - rewrite Hnodes, <- (nodes_copy G Hwf).
    etrans; [apply sublist_filter|done].
  - intros u. rewrite <- (degree_copy G u Hwf).
    etrans; [|apply Hdeg]. by rewrite (degree_same_adj G1 _ u (Hadj u)).
  - intros a b Ha Hb Hab. apply bool_decide_eq_true in Hab.
    apply bool_decide_eq_true. rewrite Hadj.
    rewrite Hnodes in Ha, Hb.
    apply list_elem_of_filter in Ha as [_ Ha], Hb as [_ Hb].
    apply Hedge; [done..|]. by apply elem_adj_copy.
Qed.

(** X4.  A graph that has no node of degree two and no isolated node is
    returned as it is, with or without self-loops: the loop stops at its
    first test and the reducer returns the copy, the same nodes in the
    same order with the same edges. *)
Theorem reduced_graph_is_returned G fuel :
  wf G → (∀ u, u ∈ nodes G → degree G u ≠ 2 ∧ degree G u ≠ 0) → 0 < fuel →
  ∃ G', get_kuratowski_minor fuel G = Some G' ∧
        same_graph G' G ∧ nodes G' = nodes G.
Proof.
  intros Hwf Hdeg Hfuel. pose proof (wf_nodup _ Hwf) as Hnd.
  exists (copy G). split; [|by apply copy_same_graph].
  apply minor_of_reduced; [done| | |done].
  - rewrite degree_two_nodes_eq by done. apply filter_none, Forall_forall.
    intros u Hu. by apply Hdeg.
  - rewrite isolates_eq by done. apply filter_none, Forall_forall.
    intros u Hu. by apply Hdeg.
Qed.

(** A node whose only neighbour is itself keeps the loop going. *)
Lemma lone_loop_kept G u w rest :
  wf G → adj G u = [u] → degree_two_nodes G = w :: rest →
  wf (contract G w) ∧ adj (contract G w) u = [u].
Proof.
  intros Hwf Hu Heq. unfold contract, neighbors.
  destruct (adj G w) as [|v1 [|v2 [|? ?]]] eqn:Hw; try done.
  assert (Hwu : w ≠ u) by (intros ->; by rewrite Hu in Hw).
  assert (Hnot : ∀ x, x ∈ adj G w → x ≠ u).
  { intros x Hx ->. apply wf_adj_sym in Hx; [|done]. rewrite Hu in Hx.
    by apply list_elem_of_singleton in Hx. }
  assert (H1 : v1 ≠ u) by (apply Hnot; rewrite Hw; apply list_elem_of_here).
  assert (H2 : v2 ≠ u)
    by (apply Hnot; rewrite Hw;
        apply list_elem_of_further, list_elem_of_here).
  set (G1 := if decide (v1 ≠ v2 ∧ has_edge G v1 v2 = false)
             then add_edge G v1 v2 else G).
  assert (Hwf1 : wf G1) by (unfold G1; case_match; auto using add_edge_wf).
  assert (Hu1 : adj G1 u = [u]).
  { unfold G1. case_match; [|done]. rewrite adj_add_edge. simpl.
    by rewrite !decide_False by done. }
  split; [by apply remove_node_wf|].
  rewrite adj_remove_node, Hu1 by done. rewrite decide_False by done.
  rewrite filter_cons_True by done. done.
Qed.

Lemma lone_loop_never_breaks G u fuel :
  wf G → adj G u = [u] → contract_loop fuel G = None.
Proof.
  revert G. induction fuel as [|k IH]; intros G Hwf Hu; [done|].
  cbn [contract_loop].
  destruct (degree_two_nodes G) as [|w rest] eqn:Heq.
  - exfalso. apply (degree_two_nodes_nil G (wf_nodup _ Hwf)) with u in Heq.
    apply Heq. unfold degree, node_degree. rewrite Hu. simpl.
    rewrite decide_True; [done|]. apply list_elem_of_here.
  - destruct (lone_loop_kept _ _ _ _ Hwf Hu Heq) as [Hwf' Hu']. by apply IH.
Qed.

(** X5.  The reducer does not return on a graph that has a node whose
    only edge is a loop on itself: such a node has degree two and one
    neighbour, it is never removed, and the loop's test never fails,
    whatever the fuel. *)
Theorem lone_self_loop_diverges G u :
  wf G → adj G u = [u] → ∀ fuel, get_kuratowski_minor fuel G = None.
Proof.
  intros Hwf Hu fuel. unfold get_kuratowski_minor.
  rewrite (lone_loop_never_breaks (copy G) u fuel); [done|by apply copy_wf|].
  pose proof (adj_copy G u Hwf) as Hp. rewrite Hu in Hp.
  by apply Permutation_singleton_r in Hp.
Qed.

End reducer_extras.

(** The reducer on [K5_subdivided]: a graph on five of its nodes. *)
Lemma reducer_only_contracts_witness :
  ∃ G', get_kuratowski_minor 7 K5_subdivided = Some G' ∧
        nodes G' `sublist_of` nodes K5_subdivided.
Proof.
  destruct (reducer_only_contracts K5_subdivided)
    as (G' & Hrun & _ & _ & Hsub & _).
  - apply (bool_decide_unpack _). vm_compute. exact I.
  - apply (bool_decide_unpack _). vm_compute. exact I.
  - exists G'. split; [apply Hrun; vm_compute; lia|done].
Defined.

(** The complete graph on five nodes comes back as it is. *)
Lemma reduced_graph_is_returned_witness :
  ∃ G', get_kuratowski_minor 1 K5_graph = Some G' ∧ same_graph G' K5_graph.
Proof.
  destruct (reduced_graph_is_returned K5_graph 1) as (G' & Hrun & Hsame & _).
  - apply (bool_decide_unpack _). vm_compute. exact I.
  - apply (proj1 (Forall_forall
             (λ u, degree K5_graph u ≠ 2 ∧ degree K5_graph u ≠ 0)
             (nodes K5_graph))).
    apply (bool_decide_unpack _). vm_compute. exact I.
  - lia.
  - exists G'. split; assumption.
Defined.

(** One node with a loop on itself. *)
Lemma lone_self_loop_diverges_witness :
  get_kuratowski_minor 3 loop_graph = None.
Proof.
  refine (lone_self_loop_diverges loop_graph 0 _ _ 3).
  - apply (bool_decide_unpack _). vm_compute. exact I.
  - reflexivity.
Defined.

(** ** Subdividing an edge and reducing *)

Section subdivision_extras.
Context {V : Type} `{!EqDecision V}.
Implicit Types (G : @Graph V) (u v w a b x y : V).

Lemma nodes_adj_del G u v : nodes (adj_del G u v) = nodes G.
Proof.
  induction G as [|[n l] G IH]; cbn [adj_del]; [done|].
  destruct (decide (n = u)); [done|]. by rewrite !nodes_cons, IH.
Qed.

Lemma adj_adj_del G u v x :
  adj (adj_del G u v) x =
    if decide (x = u) then filter (λ w, w ≠ v) (adj G u) else adj G x.
Proof.
  induction G as [|[n l] G IH]; cbn [adj_del adj].
  - by case_decide.
  - destruct (decide (n = u)) as [->|Hne]; cbn [adj].
    + destruct (decide (u = x)) as [->|Hux].
      * by rewrite decide_True.
      * rewrite decide_False; [done|congruence].
    + destruct (decide (n = x)) as [->|Hnx].
      * rewrite decide_False; [done|congruence].
      * by rewrite IH.
Qed.

Lemma elem_adj_remove_edge G a b x y :
  y ∈ adj (remove_edge G a b) x ↔
  y ∈ adj G x ∧ ¬ (x = a ∧ y = b) ∧ ¬ (x = b ∧ y = a).
Proof.
  unfold remove_edge. rewrite !adj_adj_del.
  destruct (decide (x = b)) as [->|Hxb], (decide (b = a)) as [->|Hba];
    rewrite ?list_elem_of_filter;
    repeat (case_decide; subst; rewrite ?list_elem_of_filter);
    naive_solver.
Qed.

Lemma remove_edge_wf G a b : wf G → wf (remove_edge G a b).
Proof.
  intros Hwf. apply wf_alt. split_and!.
  - unfold remove_edge. rewrite !nodes_adj_del. by apply wf_nodup.
  - intros x. unfold remove_edge. rewrite !adj_adj_del.
    repeat case_decide; repeat apply NoDup_filter; by apply wf_adj_nodup.
  - intros x y. rewrite !elem_adj_remove_edge.
    intros (Hy & H1 & H2). split_and!; [by apply wf_adj_sym|tauto|tauto].
Qed.

Lemma subdivide_facts G a b w :
  wf G → simple G → b ∈ adj G a → w ∉ nodes G →
  wf (subdivide_edge G a b w) ∧ simple (subdivide_edge G a b w) ∧
  nodes (subdivide_edge G a b w) = nodes G ++ [w] ∧
  ∀ x y, y ∈ adj (subdivide_edge G a b w) x ↔
         (y ∈ adj G x ∧ ¬ (x = a ∧ y = b) ∧ ¬ (x = b ∧ y = a)) ∨
         (x = a ∧ y = w) ∨ (x = w ∧ y = a) ∨
         (x = w ∧ y = b) ∨ (x = b ∧ y = w).
Proof.
  intros Hwf Hs Hab Hw.
  pose proof (adj_is_node _ _ _ Hab) as Ha.
  pose proof (adj_is_node _ _ _ (wf_adj_sym _ _ _ Hwf Hab)) as Hb.
  assert (Hneq : a ≠ b) by (intros ->; by apply (simple_adj G b)).
  assert (Haw : a ≠ w) by congruence.
  assert (Hbw : b ≠ w) by congruence.
  assert (Helem : ∀ x y, y ∈ adj (subdivide_edge G a b w) x ↔
         (y ∈ adj G x ∧ ¬ (x = a ∧ y = b) ∧ ¬ (x = b ∧ y = a)) ∨
         (x = a ∧ y = w) ∨ (x = w ∧ y = a) ∨
         (x = w ∧ y = b) ∨ (x = b ∧ y = w)).
  { intros x y. unfold subdivide_edge.
    rewrite !elem_adj_add_edge, elem_adj_remove_edge. tauto. }
  assert (Hwf' : wf (subdivide_edge G a b w))
    by (unfold subdivide_edge; by do 2 apply add_edge_wf; apply remove_edge_wf).
  split_and!; [done| | |done].
  - apply simple_alt; [by apply wf_nodup|]. intros x. rewrite Helem.
    pose proof (simple_adj G x Hwf Hs). intuition congruence.
  - unfold subdivide_edge.
    assert (HR : nodes (remove_edge G a b) = nodes G)
      by (unfold remove_edge; by rewrite !nodes_adj_del).
    assert (H1 : nodes (add_edge (remove_edge G a b) a w) = nodes G ++ [w]).
    { rewrite nodes_add_edge, !nodes_add_node, HR.
      rewrite (decide_True (P := a ∈ nodes G)) by done.
      by rewrite decide_False. }
    rewrite nodes_add_edge_in; [done|..]; rewrite H1, elem_of_app.
    + right. apply list_elem_of_here.
    + by left.
Qed.

Lemma subdivide_degree G a b w :
  wf G → simple G → b ∈ adj G a → w ∉ nodes G →
  degree (subdivide_edge G a b w) w = 2 ∧
  adj (subdivide_edge G a b w) w ≡ₚ [a; b] ∧
  ∀ x, x ∈ nodes G → degree (subdivide_edge G a b w) x = degree G x.
Proof.
  intros Hwf Hs Hab Hw.
  destruct (subdivide_facts G a b w Hwf Hs Hab Hw)
    as (Hwf' & Hs' & Hn & Helem).
  pose proof (adj_is_node _ _ _ Hab) as Ha.
  pose proof (wf_adj_sym _ _ _ Hwf Hab) as Hba.
  pose proof (adj_is_node _ _ _ Hba) as Hb.
  assert (Hneq : a ≠ b) by (intros ->; by apply (simple_adj G b)).
  assert (Haw : a ≠ w) by congruence.
  assert (Hbw : b ≠ w) by congruence.
  assert (Hwadj : ∀ x, w ∉ adj G x).
  { intros x Hx. apply Hw. eapply adj_is_node. by apply wf_adj_sym. }
  assert (Hadjw : adj G w = []) by (by apply adj_not_node).
  assert (Hpw : adj (subdivide_edge G a b w) w ≡ₚ [a; b]).
  { apply NoDup_Permutation; [by apply wf_adj_nodup| |].
    - apply NoDup_cons. split; [by rewrite list_elem_of_singleton|].
      apply NoDup_singleton.
    - intros y. rewrite Helem, Hadjw, elem_of_cons, list_elem_of_singleton.
      rewrite elem_of_nil. intuition congruence. }
  split_and!; [|done|].
  - rewrite degree_simple by done. by rewrite Hpw.
  - intros x Hx. rewrite !degree_simple by done.
    assert (Hxw : x ≠ w) by congruence.
    destruct (decide (x = a)) as [->|Hxa]; [|destruct (decide (x = b)) as [->|Hxb]].
    + rewrite <- (length_filter_ne (adj G a) b) by (done || by apply wf_adj_nodup).
      replace (length (filter (λ w0, w0 ≠ b) (adj G a)) + 1)
        with (length (w :: filter (λ w0, w0 ≠ b) (adj G a))) by (simpl; lia).
      apply Permutation_length, NoDup_Permutation; [by apply wf_adj_nodup| |].
      * apply NoDup_cons. split; [|by apply NoDup_filter, wf_adj_nodup].
        rewrite list_elem_of_filter. intros [_ ?]. by apply (Hwadj a).
      * intros y. rewrite Helem, elem_of_cons, list_elem_of_filter.
        intuition congruence.
    + rewrite <- (length_filter_ne (adj G b) a) by (done || by apply wf_adj_nodup).
      replace (length (filter (λ w0, w0 ≠ a) (adj G b)) + 1)
        with (length (w :: filter (λ w0, w0 ≠ a) (adj G b))) by (simpl; lia).
      apply Permutation_length, NoDup_Permutation; [by apply wf_adj_nodup| |].
      * apply NoDup_cons. split; [|by apply NoDup_filter, wf_adj_nodup].
        rewrite list_elem_of_filter. intros [_ ?]. by apply (Hwadj b).
      * intros y. rewrite Helem, elem_of_cons, list_elem_of_filter.
        intuition congruence.
    + apply Permutation_length, NoDup_Permutation;
        [by apply wf_adj_nodup|by apply wf_adj_nodup|].
      intros y. rewrite Helem. intuition congruence.
Qed.

Lemma filter_app_single (P : V → Prop) `{!∀ x, Decision (P x)} (l : list V) w :
  Forall (λ x, ¬ P x) l → P w → filter P (l ++ [w]) = [w].
Proof.
  intros Hl Hw. rewrite filter_app, (filter_none P l Hl).
  by rewrite filter_cons_True.
Qed.

(** X6.  A subdivision vertex put into one edge of a graph without
    self-loops, nodes of degree two or isolated nodes is contracted away
    again: the reducer returns the graph, the same nodes in the same order
    with the same edges. *)
Theorem subdivide_then_reduce G a b w fuel :
  wf G → simple G →
  (∀ u, u ∈ nodes G → degree G u ≠ 2 ∧ degree G u ≠ 0) →
  has_edge G a b = true → w ∉ nodes G → 2 ≤ fuel →
  ∃ G', get_kuratowski_minor fuel (subdivide_edge G a b w) = Some G' ∧
        same_graph G' G ∧ nodes G' = nodes G.
Proof.
  intros Hwf Hs Hdeg Hab%bool_decide_eq_true Hw Hfuel.
  destruct (subdivide_facts G a b w Hwf Hs Hab Hw)
    as (HwfH & HsH & HnH & HelemH).
  destruct (subdivide_degree G a b w Hwf Hs Hab Hw) as (Hdw & Hpw & HdegH).
  remember (subdivide_edge G a b w) as H eqn:HH. clear HH.
  pose proof (copy_wf _ HwfH) as Hwfc.
  pose proof (copy_simple _ HwfH HsH) as Hsc.
  pose proof (wf_nodup _ Hwf) as Hnd.
  (* the only node of degree two is the new one *)
  assert (Hd2 : degree_two_nodes (copy H) = [w]).
  { rewrite degree_two_nodes_copy, degree_two_nodes_eq, HnH
      by (done || by apply wf_nodup).
    apply filter_app_single; [|done].
    apply Forall_forall. intros x Hx. rewrite HdegH by done. by apply Hdeg. }
  destruct (selected_neighbors _ _ _ Hwfc Hsc Hd2)
    as (v1 & v2 & Hadjw & Hv12 & _).
  assert (Hv : (v1 = a ∧ v2 = b) ∨ (v1 = b ∧ v2 = a)).
  { pose proof (adj_copy H w HwfH) as Hp. rewrite Hadjw, Hpw in Hp.
    assert (H1 : v1 ∈ [a; b]) by (rewrite <- Hp; apply list_elem_of_here).
    assert (H2 : v2 ∈ [a; b])
      by (rewrite <- Hp; apply list_elem_of_further, list_elem_of_here).
    rewrite elem_of_cons, list_elem_of_singleton in H1, H2.
    intuition congruence. }
  destruct (contract_step _ _ _ Hwfc Hsc Hd2) as (Hwf1 & Hs1 & Hn1 & _).
  pose proof (λ x y, elem_adj_contract _ _ _ _ _ x y Hwfc Hsc Hd2 Hadjw)
    as Hcontract.
  remember (contract (copy H) w) as G1 eqn:HG1.
  assert (Hnodes : nodes G1 = nodes G).
  { rewrite Hn1, nodes_copy, HnH by done. rewrite filter_app.
    rewrite filter_all by (apply Forall_forall; congruence).
    rewrite filter_cons_False by tauto. by rewrite app_nil_r. }
  assert (Hba : a ∈ adj G b) by (by apply wf_adj_sym).
  assert (Helem : ∀ x y, y ∈ adj G1 x ↔ y ∈ adj G x).
  { intros x y. rewrite Hcontract, elem_adj_copy, HelemH by done. split.
    - intros (Hxw & Hyw & [Hor|Hor]); [intuition congruence|].
      destruct Hv as [[-> ->]|[-> ->]], Hor as [[-> ->]|[-> ->]]; done.
    - intros Hxy.
      assert (x ≠ w) by (intros ->; apply Hw; by eapply adj_is_node).
      assert (y ≠ w).
      { intros ->. apply Hw. eapply adj_is_node. by apply wf_adj_sym. }
      split_and!; [done..|].
      destruct (decide (x = a ∧ y = b)) as [[-> ->]|N1];
        [right; intuition congruence|].
      destruct (decide (x = b ∧ y = a)) as [[-> ->]|N2];
        [right; intuition congruence|].
      left. left. done. }
  assert (Hperm : ∀ x, adj G1 x ≡ₚ adj G x).
  { intros x. apply NoDup_Permutation; [by apply wf_adj_nodup..|].
    intros y. apply Helem. }
  assert (Hdeg1 : ∀ x, degree G1 x = degree G x)
    by (intros x; by apply same_adj_degree).
  assert (Hd21 : degree_two_nodes G1 = []).
  { rewrite degree_two_nodes_eq, Hnodes by (by apply wf_nodup).
    apply filter_none, Forall_forall. intros x Hx.
    rewrite Hdeg1. by apply Hdeg. }
  assert (Hiso : isolates G1 = []).
  { rewrite isolates_eq, Hnodes by (by apply wf_nodup).
    apply filter_none, Forall_forall. intros x Hx.
    rewrite Hdeg1. by apply Hdeg. }
  exists G1. split; [|split; [split; [by rewrite Hnodes|done]|done]].
  assert (Hrun : contract_loop 2 (copy H) = Some G1).
  { cbn [contract_loop]. rewrite Hd2, <- HG1. by rewrite Hd21. }
  unfold get_kuratowski_minor.
  rewrite (contract_loop_mono 2 fuel _ _ Hrun Hfuel).
  cbn [mbind option_bind]. by rewrite Hiso.
Qed.

End subdivision_extras.

(** The complete graph on five nodes with a node put into the edge
    between 0 and 1. *)
Lemma subdivide_then_reduce_witness :
  ∃ G', get_kuratowski_minor 2 (subdivide_edge K5_graph 0 1 5) = Some G' ∧
        same_graph G' K5_graph.
Proof.
  destruct (subdivide_then_reduce K5_graph 0 1 5 2) as (G' & Hrun & Hsame & _).
  - apply (bool_decide_unpack _). vm_compute. exact I.
  - apply (bool_decide_unpack _). vm_compute. exact I.
  - apply (proj1 (Forall_forall
             (λ u, degree K5_graph u ≠ 2 ∧ degree K5_graph u ≠ 0)
             (nodes K5_graph))).
    apply (bool_decide_unpack _). vm_compute. exact I.
  - vm_compute. reflexivity.
  - apply (bool_decide_unpack _). vm_compute. exact I.
  - lia.
  - exists G'. split; assumption.
Defined.

(** ** Escaped text *)

Section escape_extras.
Context {V : Type} `{!EqDecision V}.
Variable node_lt : V → V → bool.
Variable node_str : V → string.

Lemma list_ascii_app (s1 s2 : string) :
  list_ascii_of_string (s1 ++ s2)
  = list_ascii_of_string s1 ++ list_ascii_of_string s2.
Proof. induction s1 as [|c s1 IH]; simpl; [done|]. by rewrite IH. Qed.

Lemma escape_char_safe (c : ascii) :
  Forall (λ d, ¬ markup_char d) (list_ascii_of_string (escape_char c)).
Proof.
  unfold escape_char.
  destruct (Ascii.eqb_spec c "&"); [|destruct (Ascii.eqb_spec c "<");
    [|destruct (Ascii.eqb_spec c ">");
      [|destruct (Ascii.eqb_spec c (ascii_of_nat 34));
        [|destruct (Ascii.eqb_spec c (ascii_of_nat 39))]]]];
    simpl; repeat constructor; unfold markup_char;
    try (intros [?|[?|[?|?]]]; done).
Qed.

Lemma html_escape_safe (s : string) :
  Forall (λ d, ¬ markup_char d) (list_ascii_of_string (html_escape s)).
Proof.
  induction s as [|c s IH]; simpl; [constructor|].
  rewrite list_ascii_app. apply Forall_app. split; [apply escape_char_safe|done].
Qed.

Lemma html_escape_clean (s : string) :
  Forall (λ d, ¬ markup_char d ∧ d ≠ "&"%char) (list_ascii_of_string s) →
  html_escape s = s.
Proof.
  induction s as [|c s IH]; simpl; [done|].
  intros [[Hm Ha] Hs]%Forall_cons. rewrite (IH Hs).
  unfold escape_char, markup_char in *.
  destruct (Ascii.eqb_spec c "&"); [done|].
  destruct (Ascii.eqb_spec c "<"); [tauto|].
  destruct (Ascii.eqb_spec c ">"); [tauto|].
  destruct (Ascii.eqb_spec c (ascii_of_nat 34)); [tauto|].
  destruct (Ascii.eqb_spec c (ascii_of_nat 39)); [tauto|]. done.
Qed.

(** X7.  No text of the document can break out of its element: the
    title and every label are passed through [html.escape], whose result
    holds none of [<], [>], the double quote and the apostrophe, whatever
    the title and the node names are; a text without these characters and
    without [&] is written as it is. *)
Theorem document_text_is_escaped (G : @Graph V) (pos : @Pos V)
  (highlight : list (V * V)) (title : option string) (wpx hpx : Z)
  (st : node_style) :
  Forall (λ p, match part_text p with
               | Some t => Forall (λ d, ¬ markup_char d) (list_ascii_of_string t)
               | None => True
               end)
    (graph_to_svg node_lt node_str G pos highlight title wpx hpx st) ∧
  (∀ s, Forall (λ d, ¬ markup_char d ∧ d ≠ "&"%char) (list_ascii_of_string s) →
        html_escape s = s) ∧
  (∀ n x y, n ∈ nodes G → pos_get pos n = Some (x, y) →
            ∃ size, SvgText n x y size (label_color st)
                      (html_escape (node_str n))
                    ∈ graph_to_svg node_lt node_str G pos highlight title
                        wpx hpx st).
Proof.
  split_and!.
  - apply Forall_forall. intros p Hp. apply elem_render in Hp.
    destruct Hp as [->|[(? & ? & ? & ? & _ & ->)|[(? & ? & _ & ->)|
                   [Hp|[Hp|[Hp| ->]]]]]]; try done.
    + apply html_escape_safe.
    + by apply elem_normal_lines in Hp as (?&?&?&?&?&?&_&_&_&_& ->).
    + by apply elem_highlight_lines in Hp as (?&?&?&?&?&?&_&_&_& ->).
    + apply elem_node_parts in Hp as (n & x & y & _ & _ & [-> | ->]);
        [done|apply html_escape_safe].
  - apply html_escape_clean.
  - intros n x y Hn Hget. eexists. apply elem_render. do 5 right. left.
    apply elem_node_parts. exists n, x, y. split_and!; [done..|]. by right.
Qed.

End escape_extras.

(** ** Lines, circles and labels of the document *)

Section drawing_extras.
Context {V : Type} `{!EqDecision V}.
Variable node_lt : V → V → bool.
Variable node_str : V → string.
Implicit Types (G : @Graph V) (pos : @Pos V) (hl highlight : list (V * V))
  (p : @svg_part V) (st : node_style) (n u v a b : V) (e : V * V).

Local Abbreviation render := (graph_to_svg node_lt node_str).
Local Abbreviation canon := (sorted_pair node_lt).

Lemma plain_line_iff G pos highlight title wpx hpx st u v x1 y1 x2 y2 s :
  SvgLine u v x1 y1 x2 y2 normal_line s
    ∈ render G pos highlight title wpx hpx st ↔
  (u, v) ∈ edges G ∧ pos_get pos u = Some (x1, y1) ∧
  pos_get pos v = Some (x2, y2) ∧
  (canon (u, v) ∉ canon <$> highlight) ∧ s = edge_color st.
Proof.
  rewrite elem_render. split.
  - intros [?|[(? & ? & ? & ? & _ & ?)|[(? & ? & _ & ?)|
            [Hp|[Hp|[Hp|?]]]]]]; try done.
    + apply elem_normal_lines in Hp
        as (u'&v'&?&?&?&?&He&Hu&Hv&Hn&[= -> -> -> -> -> -> ->]).
      split_and!; try done. by rewrite <- elem_of_remove_dups.
    + by apply elem_highlight_lines in Hp as (?&?&?&?&?&?&_&_&_&?).
    + by apply elem_node_parts in Hp as (? & ? & ? & _ & _ & [?|?]).
  - intros (He & Hu & Hv & Hn & ->). do 3 right. left.
    apply elem_normal_lines. exists u, v, x1, y1, x2, y2.
    split_and!; try done. by rewrite elem_of_remove_dups.
Qed.

Lemma emphasized_line_iff G pos highlight title wpx hpx st u v x1 y1 x2 y2 s :
  SvgLine u v x1 y1 x2 y2 highlight_line s
    ∈ render G pos highlight title wpx hpx st ↔
  ((u, v) ∈ canon <$> highlight) ∧ pos_get pos u = Some (x1, y1) ∧
  pos_get pos v = Some (x2, y2) ∧ s = highlight_color st.
Proof.
  rewrite elem_render. split.
  - intros [?|[(? & ? & ? & ? & _ & ?)|[(? & ? & _ & ?)|
            [Hp|[Hp|[Hp|?]]]]]]; try done.
    + by apply elem_normal_lines in Hp as (?&?&?&?&?&?&_&_&_&_&?).
    + apply elem_highlight_lines in Hp
        as (u'&v'&?&?&?&?&He&Hu&Hv&[= -> -> -> -> -> -> ->]).
      split_and!; try done. by rewrite <- elem_of_remove_dups.
    + by apply elem_node_parts in Hp as (? & ? & ? & _ & _ & [?|?]).
  - intros (He & Hu & Hv & ->). do 4 right. left.
    apply elem_highlight_lines. exists u, v, x1, y1, x2, y2.
    split_and!; try done. by rewrite elem_of_remove_dups.
Qed.

(** Sorting makes the two orders of a pair the same pair. *)
Lemma sorted_pair_swap a b :
  strict_total node_lt → canon (b, a) = canon (a, b).
Proof.
  intros [Hasym Htot]. unfold sorted_pair. simpl.
  destruct (decide (a = b)) as [->|Hne]; [by destruct (node_lt b b)|].
  destruct (node_lt a b) eqn:Hab, (node_lt b a) eqn:Hba; try done.
  - by rewrite (Hasym _ _ Hab) in Hba.
  - destruct (Htot a b Hne); congruence.
Qed.

Lemma sorted_pair_elem a b highlight :
  strict_total node_lt →
  canon (a, b) ∈ canon <$> highlight ↔ (a, b) ∈ highlight ∨ (b, a) ∈ highlight.
Proof.
  intros Hst. rewrite list_elem_of_fmap. split.
  - intros (e & Heq & He).
    destruct (sorted_pair_cases node_lt e) as [Hc|Hc],
             (sorted_pair_cases node_lt (a, b)) as [Hc'|Hc'];
      rewrite Hc, Hc' in Heq; destruct e as [c d]; simplify_eq/=; auto.
  - intros [He|He].
    + by exists (a, b).
    + exists (b, a). split; [|done]. symmetry. by apply sorted_pair_swap.
Qed.

Lemma sorted_pair_idem e : strict_total node_lt → canon (canon e) = canon e.
Proof.
  intros Hst. destruct e as [a b].
  destruct (sorted_pair_cases node_lt (a, b)) as [Hc|Hc].
  - by rewrite !Hc.
  - rewrite Hc at 1. simpl. by apply sorted_pair_swap.
Qed.

(** X8.  When [<] orders the node identifiers, highlighting does not
    depend on the order in which a pair is given.  An edge of the graph
    with two positioned ends is drawn plain exactly when the highlight set
    holds it in neither order, and emphasized, as its sorted pair, exactly
    when the set holds it in one of them; no edge is drawn both ways. *)
Theorem highlight_ignores_orientation G pos highlight title wpx hpx st
    u v x1 y1 x2 y2 :
  strict_total node_lt →
  (u, v) ∈ edges G → pos_get pos u = Some (x1, y1) →
  pos_get pos v = Some (x2, y2) →
  let out := render G pos highlight title wpx hpx st in
  let emphasized :=
    SvgLine u v x1 y1 x2 y2 highlight_line (highlight_color st) ∈ out ∨
    SvgLine v u x2 y2 x1 y1 highlight_line (highlight_color st) ∈ out in
  (SvgLine u v x1 y1 x2 y2 normal_line (edge_color st) ∈ out
   ↔ ((u, v) ∉ highlight) ∧ ((v, u) ∉ highlight)) ∧
  (emphasized ↔ (u, v) ∈ highlight ∨ (v, u) ∈ highlight) ∧
  ¬ (SvgLine u v x1 y1 x2 y2 normal_line (edge_color st) ∈ out ∧ emphasized).
Proof.
  intros Hst He Hu Hv out emphasized.
  assert (Hplain : SvgLine u v x1 y1 x2 y2 normal_line (edge_color st) ∈ out
                   ↔ ((u, v) ∉ highlight) ∧ ((v, u) ∉ highlight)).
  { unfold out. rewrite plain_line_iff, sorted_pair_elem by done. tauto. }
  assert (Hemph : emphasized ↔ (u, v) ∈ highlight ∨ (v, u) ∈ highlight).
  { unfold emphasized, out. rewrite !emphasized_line_iff.
    rewrite <- (sorted_pair_elem u v) by done. split.
    - intros [(Hin & _)|(Hin & _)].
      + apply list_elem_of_fmap in Hin as (e & Heq & Hin).
        apply list_elem_of_fmap. exists e. split; [|done].
        by rewrite Heq, sorted_pair_idem.
      + apply list_elem_of_fmap in Hin as (e & Heq & Hin).
        apply list_elem_of_fmap. exists e. split; [|done].
        by rewrite (sorted_pair_swap v u), Heq, sorted_pair_idem.
    - intros Hin.
      destruct (sorted_pair_cases node_lt (u, v)) as [Hc|Hc];
        rewrite Hc in Hin; [left|right]; done. }
  split_and!; [done..|]. rewrite Hplain, Hemph. tauto.
Qed.

End drawing_extras.

(** Highlighting the path's edge between 1 and 2 as the pair (2, 1). *)
Lemma highlight_ignores_orientation_witness :
  SvgLine 1 2 1 0 2 1 highlight_line (highlight_color default_style)
    ∈ render_nat path_graph path_positions [(2, 1)] ∨
  SvgLine 2 1 2 1 1 0 highlight_line (highlight_color default_style)
    ∈ render_nat path_graph path_positions [(2, 1)].
Proof.
  apply (highlight_ignores_orientation Nat.ltb nat_str path_graph
           path_positions [(2, 1)] None 800%Z 800%Z default_style 1 2).
  - split.
    + intros a b Hab. apply Nat.ltb_lt in Hab. apply Nat.ltb_ge. lia.
    + intros a b Hne. rewrite !Nat.ltb_lt. lia.
  - apply (bool_decide_unpack _). vm_compute. exact I.
  - reflexivity.
  - reflexivity.
  - right. apply (bool_decide_unpack _). vm_compute. exact I.
Defined.

(** ** Every node and every edge once *)

Section once_extras.
Context {V : Type} `{!EqDecision V}.
Variable node_lt : V → V → bool.
Variable node_str : V → string.
Implicit Types (G : @Graph V) (pos : @Pos V) (hl highlight : list (V * V))
  (p : @svg_part V) (st : node_style) (n u v a b : V) (e : V * V)
  (seen : list V).

Local Abbreviation render := (graph_to_svg node_lt node_str).

Lemma omap_none {A B} (g : A → option B) (l : list A) :
  Forall (λ y, g y = None) l → omap g l = [].
Proof.
  induction 1 as [|y l Hy _ IH]; [done|]. cbn. by rewrite Hy.
Qed.

Lemma node_parts_circles G pos st :
  omap circle_node (node_parts node_str G pos st)
  = filter (λ n, is_Some (pos_get pos n)) (nodes G) ∧
  omap label_node (node_parts node_str G pos st)
  = filter (λ n, is_Some (pos_get pos n)) (nodes G).
Proof.
  unfold node_parts. induction (nodes G) as [|n l [IH1 IH2]]; [done|].
  rewrite bind_cons, !omap_app, IH1, IH2, filter_cons.
  destruct (pos_get pos n) as [[x y]|].
  - rewrite decide_True by done. done.
  - rewrite decide_False by (by intros []). done.
Qed.

Lemma lines_no_nodes G pos hl st :
  omap circle_node (normal_lines node_lt G pos hl st) = [] ∧
  omap label_node (normal_lines node_lt G pos hl st) = [] ∧
  omap circle_node (highlight_lines pos hl st) = [] ∧
  omap label_node (highlight_lines pos hl st) = [].
Proof.
  split_and!; apply omap_none, Forall_forall; intros p Hp;
    first [apply elem_normal_lines in Hp as (?&?&?&?&?&?&_&_&_&_& ->)
          |apply elem_highlight_lines in Hp as (?&?&?&?&?&?&_&_&_& ->)];
    done.
Qed.

(** X9.  Every node that has a position is drawn once: the circles of
    the document, in their order, are the nodes of the graph that have a
    position, in the order of the graph, and so are the labels; on a graph
    no node is drawn twice. *)
Theorem positioned_nodes_drawn_once G pos highlight title wpx hpx st :
  omap circle_node (render G pos highlight title wpx hpx st)
  = filter (λ n, is_Some (pos_get pos n)) (nodes G) ∧
  omap label_node (render G pos highlight title wpx hpx st)
  = filter (λ n, is_Some (pos_get pos n)) (nodes G) ∧
  (wf G → NoDup (omap circle_node (render G pos highlight title wpx hpx st))).
Proof.
  assert (Hboth :
    omap circle_node (render G pos highlight title wpx hpx st)
    = filter (λ n, is_Some (pos_get pos n)) (nodes G) ∧
    omap label_node (render G pos highlight title wpx hpx st)
    = filter (λ n, is_Some (pos_get pos n)) (nodes G)).
  { unfold graph_to_svg. destruct (viewbox pos) as [[[? ?] ?] ?].
    destruct (lines_no_nodes G pos
                (remove_dups (sorted_pair node_lt <$> highlight)) st)
      as (H1 & H2 & H3 & H4).
    destruct (node_parts_circles G pos st) as [H5 H6].
    rewrite !omap_app, H1, H2, H3, H4, H5, H6.
    destruct title as [[|c t]|]; cbn; by rewrite app_nil_r. }
  destruct Hboth as [Hc Hl]. split_and!; [done..|].
  intros Hwf. rewrite Hc. by apply NoDup_filter, wf_nodup.
Qed.

(** [G.edges()] reports an edge from the end that comes first. *)
Lemma edges_from_fst seen G u v :
  (u, v) ∈ edges_from seen G → u ∈ nodes G ∧ v ∉ seen.
Proof.
  revert seen. induction G as [|[n l] G IH]; intros seen; cbn [edges_from].
  - by intros ?%elem_of_nil.
  - rewrite elem_of_app, nodes_cons. intros [Hin|Hin].
    + apply list_elem_of_fmap in Hin as (y & [= -> ->] & Hy).
      apply list_elem_of_filter in Hy as [Hy _].
      split; [apply list_elem_of_here|done].
    + apply IH in Hin as [Hu Hv]. split; [by apply list_elem_of_further|].
      intros ?. apply Hv. by apply list_elem_of_further.
Qed.

Lemma edges_from_nodup seen G :
  NoDup (nodes G) → Forall (λ ent, NoDup ent.2) G → NoDup (edges_from seen G).
Proof.
  revert seen. induction G as [|[n l] G IH]; intros seen Hnd Hall;
    cbn [edges_from]; [constructor|].
  rewrite nodes_cons in Hnd. apply NoDup_cons in Hnd as [Hn Hnd].
  apply Forall_cons in Hall as [Hl Hall]. simpl in Hl.
  apply NoDup_app. split_and!.
  - apply NoDup_fmap_2; [by intros ?? [= ->]|by apply NoDup_filter].
  - intros [u v] Hin Hin'.
    apply list_elem_of_fmap in Hin as (y & [= -> ->] & _).
    by apply edges_from_fst in Hin' as [? _].
  - by apply IH.
Qed.

Lemma edges_from_antisym seen G u v :
  (u, v) ∈ edges_from seen G → (v, u) ∈ edges_from seen G → u = v.
Proof.
  revert seen. induction G as [|[n l] G IH]; intros seen; cbn [edges_from].
  - by intros ?%elem_of_nil.
  - rewrite !elem_of_app. intros [H1|H1] [H2|H2].
    + apply list_elem_of_fmap in H1 as (y & [= -> ->] & _).
      by apply list_elem_of_fmap in H2 as (z & [= -> ->] & _).
    + apply list_elem_of_fmap in H1 as (y & [= -> ->] & _).
      apply edges_from_fst in H2 as [_ H2]. exfalso. apply H2, list_elem_of_here.
    + apply list_elem_of_fmap in H2 as (y & [= -> ->] & _).
      apply edges_from_fst in H1 as [_ H1]. exfalso. apply H1, list_elem_of_here.
    + by apply (IH (n :: seen)).
Qed.

Lemma edges_from_cover seen G u v nu nv :
  NoDup (nodes G) → (u, nu) ∈ G → (v, nv) ∈ G → v ∈ nu → u ∈ nv →
  u ∉ seen → v ∉ seen →
  (u, v) ∈ edges_from seen G ∨ (v, u) ∈ edges_from seen G.
Proof.
  revert seen. induction G as [|[n l] G IH]; intros seen Hnd Hu Hv Hvu Huv Hsu Hsv.
  - by apply elem_of_nil in Hu.
  - rewrite nodes_cons in Hnd. apply NoDup_cons in Hnd as [Hn Hnd].
    cbn [edges_from]. rewrite !elem_of_app.
    apply elem_of_cons in Hu as [[= -> ->]|Hu].
    { left. left. apply list_elem_of_fmap. exists v. split; [done|].
      by apply list_elem_of_filter. }
    apply elem_of_cons in Hv as [[= -> ->]|Hv].
    { right. left. apply list_elem_of_fmap. exists u. split; [done|].
      by apply list_elem_of_filter. }
    assert (u ≠ n).
    { intros ->. apply Hn, list_elem_of_fmap. by exists (n, nu). }
    assert (v ≠ n).
    { intros ->. apply Hn, list_elem_of_fmap. by exists (n, nv). }
    destruct (IH (n :: seen)) as [H1|H1]; try done; auto.
    + by intros [?|?]%elem_of_cons.
    + by intros [?|?]%elem_of_cons.
Qed.

Lemma plain_lines_ends G pos st :
  omap line_ends (normal_lines node_lt G pos [] st)
  = filter (λ e, is_Some (pos_get pos e.1) ∧ is_Some (pos_get pos e.2))
      (edges G).
Proof.
  unfold normal_lines. induction (edges G) as [|[u v] l IH]; [done|].
  rewrite bind_cons, omap_app, IH, filter_cons. cbn [fst snd].
  destruct (pos_get pos u) as [[x1 y1]|], (pos_get pos v) as [[x2 y2]|];
    try (rewrite decide_False by (by intros [[? ?] [? ?]]); done).
  rewrite decide_False by apply not_elem_of_nil.
  rewrite decide_True by (split; eauto). done.
Qed.

(** X10.  With nothing highlighted every edge of the graph that has two
    positioned ends is drawn by exactly one line: the lines of the
    document, in their order, are those edges as [G.edges()] lists them;
    no line is repeated, no edge between two different nodes is drawn in
    both directions, and two adjacent nodes that have positions are
    joined by a line. *)
Theorem edges_drawn_once G pos title wpx hpx st :
  wf G →
  let drawn := omap line_ends (render G pos [] title wpx hpx st) in
  drawn = filter (λ e, is_Some (pos_get pos e.1) ∧ is_Some (pos_get pos e.2))
            (edges G) ∧
  NoDup drawn ∧
  (∀ u v, (u, v) ∈ drawn → has_edge G u v = true) ∧
  (∀ u v, (u, v) ∈ drawn → (v, u) ∈ drawn → u = v) ∧
  (∀ u v, has_edge G u v = true → is_Some (pos_get pos u) →
          is_Some (pos_get pos v) → (u, v) ∈ drawn ∨ (v, u) ∈ drawn).
Proof.
  intros Hwf drawn. pose proof (wf_nodup _ Hwf) as Hnd.
  assert (Hdrawn : drawn =
    filter (λ e, is_Some (pos_get pos e.1) ∧ is_Some (pos_get pos e.2))
      (edges G)).
  { unfold drawn, graph_to_svg. destruct (viewbox pos) as [[[? ?] ?] ?].
    rewrite !omap_app. cbn [fmap list_fmap remove_dups].
    rewrite plain_lines_ends.
    rewrite (omap_none line_ends (node_parts node_str G pos st)).
    2:{ apply Forall_forall. intros p Hp.
        by apply elem_node_parts in Hp as (?&?&?&_&_&[-> | ->]). }
    destruct title as [[|c t]|]; cbn; by rewrite app_nil_r. }
  split_and!; [done|..]; rewrite Hdrawn.
  - apply NoDup_filter, edges_from_nodup; [done|].
    destruct Hwf as [_ Hall]. eapply Forall_impl; [exact Hall|]. by intros ? [? _].
  - intros u v [_ He]%list_elem_of_filter. apply bool_decide_eq_true.
    apply edges_from_elem in He as (nbrs & Hin & Hv).
    by rewrite (adj_elem _ _ _ Hnd Hin).
  - intros u v [_ H1]%list_elem_of_filter [_ H2]%list_elem_of_filter.
    by apply (edges_from_antisym [] G).
  - intros u v Huv%bool_decide_eq_true Hpu Hpv.
    pose proof (wf_adj_sym _ _ _ Hwf Huv) as Hvu.
    destruct (edges_from_cover [] G u v (adj G u) (adj G v)) as [He|He];
      try done.
    + apply adj_in. by eapply adj_is_node.
    + apply adj_in. by eapply adj_is_node.
    + apply not_elem_of_nil.
    + apply not_elem_of_nil.
    + left. by apply list_elem_of_filter.
    + right. by apply list_elem_of_filter.
Qed.

End once_extras.

(** The path with all its nodes positioned: two lines. *)
Lemma edges_drawn_once_witness :
  NoDup (omap line_ends (render_nat path_graph path_positions [])).
Proof.
  apply (edges_drawn_once Nat.ltb nat_str path_graph path_positions None
           800%Z 800%Z default_style).
  apply (bool_decide_unpack _). vm_compute. exact I.
Defined.

(** ** The positions of a request *)

Section positions_extras.
Context {V : Type} `{!EqDecision V}.
Variable node_of : json → option V.
Variable float_of_string : string → option Q.
Implicit Types (pos : @Pos V) (k : V) (xy : Q * Q) (n m : json)
  (items : list json).

Local Abbreviation parse_item := (parse_node node_of float_of_string).
Local Abbreviation parse_items := (parse_positions node_of float_of_string).

Lemma pos_get_set_eq pos k xy : pos_get (pos_set pos k xy) k = Some xy.
Proof.
  induction pos as [|[m c] pos IH]; simpl.
  - by rewrite decide_True.
  - destruct (decide (m = k)) as [->|Hne]; simpl.
    + by rewrite decide_True.
    + by rewrite decide_False.
Qed.

Lemma pos_get_set_ne pos k k' xy :
  k' ≠ k → pos_get (pos_set pos k xy) k' = pos_get pos k'.
Proof.
  intros Hne. induction pos as [|[m c] pos IH]; simpl.
  - by rewrite decide_False.
  - destruct (decide (m = k)) as [->|Hmk]; simpl.
    + by rewrite !decide_False.
    + destruct (decide (m = k')); [done|apply IH].
Qed.

Lemma pos_set_keys pos k xy :
  (pos_set pos k xy).*1 = if decide (k ∈ pos.*1) then pos.*1 else pos.*1 ++ [k].
Proof.
  induction pos as [|[m c] pos IH]; [done|]. cbn [pos_set].
  destruct (decide (m = k)) as [->|Hmk]; rewrite !fmap_cons; cbn [fst].
  - rewrite decide_True; [done|apply list_elem_of_here].
  - rewrite IH. destruct (decide (k ∈ pos.*1)) as [Hin|Hin].
    + rewrite decide_True; [done|by apply list_elem_of_further].
    + rewrite decide_False; [done|].
      rewrite elem_of_cons. intros [?|?]; congruence.
Qed.

Lemma pos_set_nodup pos k xy : NoDup pos.*1 → NoDup (pos_set pos k xy).*1.
Proof.
  intros Hnd. rewrite pos_set_keys. destruct (decide (k ∈ pos.*1)); [done|].
  apply NoDup_app. split_and!; [done| |apply NoDup_singleton].
  intros x Hx Hk. apply list_elem_of_singleton in Hk. congruence.
Qed.

Lemma pos_get_is_key pos k : is_Some (pos_get pos k) ↔ k ∈ pos.*1.
Proof.
  induction pos as [|[m c] pos IH]; simpl.
  - split; [by intros [? ?]|by intros ?%not_elem_of_nil].
  - rewrite elem_of_cons. destruct (decide (m = k)) as [->|Hne].
    + split; [by left|by eexists].
    + rewrite IH. split; [by right|]. intros [?|?]; [congruence|done].
Qed.

(** The comprehension handles its items one after the other. *)
Lemma parse_positions_cons n items pos :
  parse_items (n :: items) pos =
    match parse_item n with
    | Ok e => parse_items items (pos_set pos e.1 e.2)
    | Raise e => Raise e
    end.
Proof.
  cbn [parse_positions]. unfold parse_node.
  destruct (getitem n "id") as [id|]; [|done]. cbn [mbind result_bind].
  destruct (getitem n "x") as [xv|]; [|done]. cbn [mbind result_bind].
  destruct (to_float float_of_string xv) as [x|]; [|done].
  cbn [mbind result_bind].
  destruct (getitem n "y") as [yv|]; [|done]. cbn [mbind result_bind].
  destruct (to_float float_of_string yv) as [y|]; [|done].
  cbn [mbind result_bind].
  by destruct (node_of id).
Qed.

Lemma parse_positions_nodup items pos0 pos :
  parse_items items pos0 = Ok pos → NoDup pos0.*1 → NoDup pos.*1.
Proof.
  revert pos0. induction items as [|n items IH]; intros pos0 Hrun Hnd.
  - by injection Hrun as <-.
  - rewrite parse_positions_cons in Hrun.
    destruct (parse_item n) as [[k xy]|]; [|done].
    by apply (IH _ Hrun), pos_set_nodup.
Qed.

Lemma parse_positions_parsed items pos0 pos :
  parse_items items pos0 = Ok pos →
  Forall (λ n, ∃ e, parse_item n = Ok e) items.
Proof.
  revert pos0. induction items as [|n items IH]; intros pos0 Hrun; [done|].
  rewrite parse_positions_cons in Hrun.
  destruct (parse_item n) as [e|] eqn:Hn; [|done].
  constructor; [by exists e|by apply (IH _ Hrun)].
Qed.

(** An identifier no item has keeps what the dictionary had for it. *)
Lemma parse_positions_other items pos0 pos k :
  parse_items items pos0 = Ok pos →
  (∀ m xy, m ∈ items → parse_item m ≠ Ok (k, xy)) →
  pos_get pos k = pos_get pos0 k.
Proof.
  revert pos0. induction items as [|n items IH]; intros pos0 Hrun Hno.
  - by injection Hrun as <-.
  - rewrite parse_positions_cons in Hrun.
    destruct (parse_item n) as [[k' xy']|] eqn:Hn; [|done].
    rewrite (IH _ Hrun).
    + apply pos_get_set_ne. intros ->.
      by apply (Hno n xy'); [apply list_elem_of_here|].
    + intros m xy Hm. by apply Hno, list_elem_of_further.
Qed.

Lemma parse_positions_last before n after pos0 pos k xy :
  parse_items (before ++ n :: after) pos0 = Ok pos →
  parse_item n = Ok (k, xy) →
  (∀ m xy', m ∈ after → parse_item m ≠ Ok (k, xy')) →
  pos_get pos k = Some xy.
Proof.
  revert pos0. induction before as [|b before IH]; intros pos0 Hrun Hn Hno.
  - cbn [app] in Hrun. rewrite parse_positions_cons, Hn in Hrun.
    rewrite (parse_positions_other _ _ _ _ Hrun Hno).
    apply pos_get_set_eq.
  - change ((b :: before) ++ n :: after) with (b :: (before ++ n :: after))
      in Hrun.
    rewrite parse_positions_cons in Hrun.
    destruct (parse_item b) as [e|]; [|done].
    by apply (IH _ Hrun).
Qed.

Lemma parse_positions_keys items pos0 pos k :
  parse_items items pos0 = Ok pos →
  k ∈ pos.*1 ↔ k ∈ pos0.*1 ∨ ∃ n xy, n ∈ items ∧ parse_item n = Ok (k, xy).
Proof.
  revert pos0. induction items as [|n items IH]; intros pos0 Hrun.
  - injection Hrun as <-. split; [by left|].
    intros [?|(n & xy & Hn & _)]; [done|].
    by apply not_elem_of_nil in Hn.
  - rewrite parse_positions_cons in Hrun.
    destruct (parse_item n) as [[k' xy']|] eqn:Hn; [|done].
    rewrite (IH _ Hrun), pos_set_keys. cbn [fst snd].
    assert (Hset : k ∈ (if decide (k' ∈ pos0.*1) then pos0.*1
                        else pos0.*1 ++ [k'])
                   ↔ k ∈ pos0.*1 ∨ k = k').
    { destruct (decide (k' ∈ pos0.*1)).
      - split; [by left|]. intros [?| ->]; done.
      - rewrite elem_of_app, list_elem_of_singleton. done. }
    rewrite Hset. split.
    + intros [[?| ->]|(m & xy & Hm & Hpm)].
      * by left.
      * right. exists n, xy'. split; [apply list_elem_of_here|done].
      * right. exists m, xy. split; [by apply list_elem_of_further|done].
    + intros [?|(m & xy & Hm & Hpm)]; [by left; left|].
      apply elem_of_cons in Hm as [->|Hm].
      * left; right. congruence.
      * right. by exists m, xy.
Qed.

(** X11.  The dictionary of positions built from the items of ["nodes"]:
    when the comprehension returns, every item had an ["id"], an ["x"] and
    a ["y"] that could be read; the dictionary has one entry per
    identifier, for exactly the identifiers of the items; and where
    several items carry the same identifier the coordinates of the last
    one are kept. *)
Theorem positions_keep_last_item items pos :
  parse_items items [] = Ok pos →
  Forall (λ n, ∃ e, parse_item n = Ok e) items ∧
  NoDup pos.*1 ∧
  (∀ k, is_Some (pos_get pos k) ↔
        ∃ n xy, n ∈ items ∧ parse_item n = Ok (k, xy)) ∧
  (∀ before n after k xy,
     items = before ++ n :: after → parse_item n = Ok (k, xy) →
     (∀ m xy', m ∈ after → parse_item m ≠ Ok (k, xy')) →
     pos_get pos k = Some xy).
Proof.
  intros Hrun. split_and!.
  - by apply (parse_positions_parsed _ _ _ Hrun).
  - apply (parse_positions_nodup _ _ _ Hrun). constructor.
  - intros k. rewrite pos_get_is_key, (parse_positions_keys _ _ _ k Hrun).
    split; [|by right]. by intros [?%not_elem_of_nil|?].
  - intros before n after k xy -> Hn Hno.
    by apply (parse_positions_last _ _ _ _ _ _ _ Hrun Hn Hno).
Qed.

End positions_extras.

(** Two items for node 0: the coordinates of the second are kept. *)
Lemma positions_keep_last_item_witness :
  ∃ pos,
    parse_positions number_node (λ _, None)
      [JObj [("id"%string, JNum 0); ("x"%string, JNum 0); ("y"%string, JNum 0)];
       JObj [("id"%string, JNum 0); ("x"%string, JNum 1); ("y"%string, JNum 1)]]
      [] = Ok pos ∧
    NoDup pos.*1 ∧ pos_get pos 0 = Some (1%Q, 1%Q).
Proof.
  eexists. split; [reflexivity|].
  pose proof (positions_keep_last_item number_node (λ _, None)
    [JObj [("id"%string, JNum 0); ("x"%string, JNum 0); ("y"%string, JNum 0)];
     JObj [("id"%string, JNum 0); ("x"%string, JNum 1); ("y"%string, JNum 1)]]
    _ eq_refl) as (_ & Hnd & _ & _).
  split; [exact Hnd|reflexivity].
Defined.

(** ** The endpoint of [src/api/app.py] *)

Section endpoint_extras.
Context {V : Type} `{!EqDecision V}.
Variable node_of : json → option V.
Variable node_lt : V → V → bool.
Variable node_str : V → string.
Variable float_of_string : string → option Q.
Variable exception_text : py_exception → string.
Variable check_planarity : @Graph V → option (@Graph V).
Variable circular_layout : @Graph V → @Pos V.
Variable is_bipartite : @Graph V → bool.
Variable bipartite_sets : @Graph V → option (list V * list V).
Implicit Types (G : @Graph V) (pos : @Pos V) (k : V) (data : json)
  (es : list (json * json)) (highlight : list (V * V)).

Local Abbreviation visualize :=
  (visualize_planarity_test node_of node_lt node_str float_of_string
     exception_text check_planarity circular_layout is_bipartite
     bipartite_sets).
Local Abbreviation endpoint :=
  (planarity_api node_of node_lt node_str float_of_string exception_text
     check_planarity circular_layout is_bipartite bipartite_sets).
Local Abbreviation parse := (parse_graph_data node_of float_of_string).
Local Abbreviation build := (build_graph node_of).
Local Abbreviation picture := (draw node_lt node_str).
Local Abbreviation classify := (get_kuratowski_type is_bipartite bipartite_sets).
Local Abbreviation invalid :=
  (BadRequest (img:=@image V) (edge:=V * V)
     (Some "Invalid input format. Expected JSON with 'nodes' and 'edges'."%string)).

(** The graph of a request is what [add_edges_from] makes of the pairs of
    nodes its edges name. *)
Lemma build_graph_spec G es G' :
  build G es = Ok G' →
  ∃ ps, Forall2 (λ e p, node_of e.1 = Some p.1 ∧ node_of e.2 = Some p.2) es ps ∧
        G' = add_edges_from G ps.
Proof.
  revert G. induction es as [|[s t] es IH]; intros G Hrun.
  - injection Hrun as <-. exists []. by split.
  - cbn [build_graph] in Hrun.
    destruct (node_of s) as [u|] eqn:Hs; [|done].
    destruct (node_of t) as [v|] eqn:Ht; [|done].
    assert (Hrest : build (add_edge G u v) es = Ok G')
      by (destruct s; try done; destruct t; done).
    apply IH in Hrest as (ps & Hps & ->).
    exists ((u, v) :: ps). split; [|done]. by constructor.
Qed.

Lemma wf_nil : wf (V:=V) [].
Proof. split; constructor. Qed.



(** X12.  The graph of a request is built from its edges alone.  Its
    nodes are the endpoints of the edges, it satisfies the invariant of a
    networkx graph, and every line, circle and label of a picture of it is
    drawn for one of its nodes or for an endpoint of a highlighted pair:
    a node that is listed under ["nodes"] with a position but has no edge
    appears in no picture. *)
Theorem pictures_show_edge_endpoints_only es G :
  build [] es = Ok G →
  wf G ∧
  (∀ k, k ∈ nodes G ↔
        ∃ e, e ∈ es ∧ (node_of e.1 = Some k ∨ node_of e.2 = Some k)) ∧
  (∀ pos highlight title p k,
     p ∈ picture G pos highlight title → k ∈ part_nodes p →
     k ∈ nodes G ∨ ∃ e, e ∈ highlight ∧ (k = e.1 ∨ k = e.2)).
Proof.
  intros Hrun. apply build_graph_spec in Hrun as (ps & Hps & ->).
  assert (Hwf : wf (add_edges_from [] ps)) by apply add_edges_from_wf, wf_nil.
  split_and!; [done|..].
  - intros k. rewrite elem_nodes_add_edges_from. split.
    + intros [Hk|(p & Hp & Hk)]; [by apply elem_of_nil in Hk|].
      apply list_elem_of_lookup in Hp as [i Hi].
      destruct (Forall2_lookup_r _ _ _ _ _ Hps Hi) as (e & He & Hs & Ht).
      exists e. split; [by apply list_elem_of_lookup; exists i|].
      destruct Hk as [-> | ->]; auto.
    + intros (e & He & Hk). right.
      apply list_elem_of_lookup in He as [i Hi].
      destruct (Forall2_lookup_l _ _ _ _ _ Hps Hi) as (p & Hp & Hs & Ht).
      exists p. split; [by apply list_elem_of_lookup; exists i|].
      destruct Hk as [Hk|Hk]; [left|right]; congruence.
  - intros pos highlight title p k Hp Hk. unfold draw in Hp.
    apply elem_render in Hp
      as [->|[(? & ? & ? & ? & _ & ->)|[(? & ? & _ & ->)|[Hp|[Hp|[Hp| ->]]]]]];
      try by apply elem_of_nil in Hk.
    + apply elem_normal_lines in Hp
        as (u & v & ? & ? & ? & ? & He & _ & _ & _ & ->).
      left. pose proof (edges_adj _ _ _ Hwf He) as Hv. cbn [part_nodes] in Hk.
      apply elem_of_cons in Hk as [->|Hk].
      * by apply (adj_is_node _ _ v).
      * apply list_elem_of_singleton in Hk as ->.
        by apply (adj_is_node _ _ u), wf_adj_sym.
    + apply elem_highlight_lines in Hp
        as (u & v & ? & ? & ? & ? & He & _ & _ & ->).
      right. apply elem_of_remove_dups, list_elem_of_fmap in He
        as (e & Heq & He).
      exists e. split; [done|]. cbn [part_nodes] in Hk.
      unfold sorted_pair in Heq. destruct (node_lt e.2 e.1);
        [injection Heq as -> ->|subst e; cbn [fst snd]];
        apply elem_of_cons in Hk as [->|Hk]; auto;
        apply list_elem_of_singleton in Hk as ->; auto.
    + apply elem_node_parts in Hp as (n & ? & ? & Hn & _ & [-> | ->]);
        cbn [part_nodes] in Hk; apply list_elem_of_singleton in Hk as ->;
        by left.
Qed.


Lemma falsy_rejected data : truthy data = false → endpoint data = invalid.
Proof. intros Ht. unfold planarity_api. by rewrite Ht. Qed.

Lemma missing_key_rejected fields :
  field fields "nodes" = None ∨ field fields "edges" = None →
  endpoint (JObj fields) = invalid.
Proof.
  intros Hmiss. unfold planarity_api.
  destruct (truthy (JObj fields)); [|done]. cbn [negb contains].
  destruct (field fields "nodes") as [nv|] eqn:Hn.
  - destruct Hmiss as [?|He]; [done|]. rewrite He.
    rewrite bool_decide_eq_true_2 by by eexists.
    rewrite bool_decide_eq_false_2; [done|]. by intros [? ?].
  - rewrite bool_decide_eq_false_2; [done|]. by intros [? ?].
Qed.

Lemma scalar_fails data :
  (∃ q, data = JNum q ∧ Qeq_bool q 0 = false) ∨ data = JBool true →
  endpoint data = ServerError TypeError.
Proof.
  intros [(q & -> & Hq)| ->]; unfold planarity_api; cbn [truthy];
    [by rewrite Hq|done].
Qed.

Lemma sequence_rejected data :
  (∃ items, data = JArr items) ∨ (∃ s, data = JStr s) →
  endpoint data = invalid ∨ endpoint data = BadRequest None.
Proof.
  intros [[items ->]|[s ->]]; unfold planarity_api.
  - destruct (truthy (JArr items)); [|by left]. cbn [negb contains].
    destruct (existsb _ items); [|by left].
    destruct (existsb _ items); [|by left]. by right.
  - destruct (truthy (JStr s)); [|by left]. cbn [negb contains].
    destruct (bool_decide _); [|by left].
    destruct (bool_decide _); [|by left]. by right.
Qed.

(** X14.  What the endpoint does with a payload that is not a dictionary
    with both keys.  [None], [false], zero and the empty string, list and
    dictionary, and a dictionary that lacks ["nodes"] or ["edges"], are
    refused with status 400 and the message of the source.  A number
    other than zero and [true] pass [not data] and then make ['nodes' in
    data] raise [TypeError], which nothing catches.  A list or a string is
    refused with status 400, with the message or, when it contains both
    words, without one.  So a success answer is given to a dictionary with
    both keys only. *)
Theorem other_payloads_are_refused data :
  (truthy data = false → endpoint data = invalid) ∧
  (∀ fields, data = JObj fields →
     field fields "nodes" = None ∨ field fields "edges" = None →
     endpoint data = invalid) ∧
  ((∃ q, data = JNum q ∧ Qeq_bool q 0 = false) ∨ data = JBool true →
   endpoint data = ServerError TypeError) ∧
  ((∃ items, data = JArr items) ∨ (∃ s, data = JStr s) →
   endpoint data = invalid ∨ endpoint data = BadRequest None) ∧
  (∀ title is_planar kuratowski_type kuratowski_edges image_original
     image_subdivision image_minor,
     endpoint data =
       Success title is_planar kuratowski_type kuratowski_edges
         image_original image_subdivision image_minor →
     ∃ fields, data = JObj fields ∧ is_Some (field fields "nodes") ∧
               is_Some (field fields "edges")).
Proof.
  split_and!.
  - apply falsy_rejected.
  - intros fields ->. apply missing_key_rejected.
  - apply scalar_fails.
  - apply sequence_rejected.
  - intros t p ty ke io isub im Hok.
    destruct data as [|b|q| s|items|fields].
    + by rewrite falsy_rejected in Hok.
    + destruct b; [|by rewrite falsy_rejected in Hok].
      rewrite scalar_fails in Hok; [done|by right].
    + destruct (Qeq_bool q 0) eqn:Hq.
      * rewrite falsy_rejected in Hok; [done|]. cbn [truthy]. by rewrite Hq.
      * rewrite scalar_fails in Hok; [done|]. left. by exists q.
    + destruct (sequence_rejected (JStr s)) as [Hr|Hr]; [right; by exists s|..];
        by rewrite Hr in Hok.
    + destruct (sequence_rejected (JArr items)) as [Hr|Hr];
        [left; by exists items|..]; by rewrite Hr in Hok.
    + exists fields. split; [done|].
      destruct (field fields "nodes") as [nv|] eqn:Hn;
        [|rewrite missing_key_rejected in Hok; [done|by left]].
      destruct (field fields "edges") as [ev|] eqn:He;
        [|rewrite missing_key_rejected in Hok; [done|by right]].
      split; by eexists.
Qed.

End endpoint_extras.

(** One edge between nodes 0 and 1. *)
Lemma pictures_show_edge_endpoints_only_witness :
  ∃ G, build_graph number_node [] [(JNum 0, JNum 1)] = Ok G ∧ wf G.
Proof.
  eexists. split; [reflexivity|].
  apply (pictures_show_edge_endpoints_only number_node Nat.ltb nat_str
           [(JNum 0, JNum 1)] _ eq_refl).
Defined.


(** ** The Kuratowski type of the Matplotlib entry point *)

Section matplotlib_extras.
Context {V : Type} `{!EqDecision V}.
Variable is_bipartite : @Graph V → bool.
Variable bipartite_sets : @Graph V → option (list V * list V).

Local Abbreviation classify := (get_kuratowski_type is_bipartite bipartite_sets).
Local Abbreviation reported :=
  (matplotlib_kuratowski_type is_bipartite bipartite_sets).

(** X15.  [src/app.py] derives the [kuratowski_type] of its answer from
    the title of the third picture, by removing
    ["Minimal Kuratowski Minor: "].  Only the titles for ["K_5"] and
    ["K_3,3"] start that way: for them the type is the classifier's label,
    as in [src/api/app.py].  For the three other labels the title starts
    with ["Minimal Minor: "], nothing is removed, and the type that is
    reported is the whole title. *)
Theorem matplotlib_type_keeps_title minor :
  ∃ l, classify minor = label_text l ∧
       reported minor =
         match l with
         | K5_label | K33_label => label_text l
         | _ => ("Minimal Minor: " ++ label_text l)%string
         end ∧
       (reported minor = classify minor ↔ l = K5_label ∨ l = K33_label).
Proof.
  destruct (classifier_cascade is_bipartite bipartite_sets minor)
    as (l & _ & Hl).
  exists l. split; [done|]. unfold matplotlib_kuratowski_type. rewrite Hl.
  destruct l; (split; [reflexivity|]); vm_compute;
    (split; [intros ?|intros [?|?]]); try discriminate; auto.
Qed.

End matplotlib_extras.

(** ** Lines and the viewport *)

Section viewport_extras.
Context {V : Type} `{!EqDecision V}.
Variable node_lt : V → V → bool.
Variable node_str : V → string.
Implicit Types (G : @Graph V) (pos : @Pos V) (p : @svg_part V)
  (st : node_style).
Local Open Scope Q_scope.

Local Abbreviation render := (graph_to_svg node_lt node_str).


End viewport_extras.
